(** * Shooting competition: the game reducer of [src/state/game.ts]

    A shallow embedding of the reducer [gameReducer] and of its helpers
    ([checkWinners], [createNextRound], [overtime], [hasAttemptsLeft],
    [checkGameOver], [endRound], [getActiveRound], [getActivePlayer]),
    followed by the properties of the state machine.

    Modelling choices:
    - [Record<string, T>] is a [gmap string T]: a JavaScript object used as
      a map, its own properties being keyed by player ids.  What a plain
      object inherits from [Object.prototype] shows in one place, the test
      [round.winner in winsByPlayer] of [checkGameOver], which is modelled
      with [inherited]; [round.attempts] is read and written through its
      own properties (the id ["__proto__"], whose assignment would set the
      prototype instead of a key, is outside the model).
      The [for ... in] loops enumerate the keys in
      some order; the reducer only looks at the length of the list of
      winners and, when that length is 1, at its only element, and the
      members of the list do not depend on the order
      ([checkWinners_loop_elem]), so the enumeration order never shows in a
      state.
    - [number] fields that are array indices or counts ([activeRound],
      [activePlayer], [attempts], [bestOf]) are [nat]; a percentage and a
      random draw are [Z].
    - [boolean | null] is [option bool], [None] being a pending attempt;
      [string | null] is [option string].
    - a draft mutated inside immer's [produce] is explicit state passing;
      the draft [round] obtained from [getActiveRound] aliases
      [game.rounds[game.activeRound]] and is modelled by updates at that
      index.  When the recipe throws, [produce] throws and no state is
      produced: the reducer returns [Throw].
    - [Math.random] and [crypto.randomUUID] are read from an environment;
      [console.log] is not modelled. *)

From stdpp Require Import gmap strings list fin_maps pretty.

Local Open Scope string_scope.
Local Open Scope list_scope.
Local Open Scope nat_scope.

(** ** Errors and results *)

(** The [Error]s thrown by the reducer, one constructor per message. *)
Inductive error : Type :=
  | RoundNotFound (activeRound : nat)
      (* invariant(round, `Round ${game.activeRound} not found.`) *)
  | PlayerNotFound (activePlayer : nat)
      (* invariant(player, `Player ${round.activePlayer} not found.`) *)
  | PlayerNotInRound (player round : string)
      (* `Player ${player.id} not found in round ${round.id}.` *)
  | NoMoreMakes
      (* "Invalid action, no more makes left" *)
  | WinnerNotFound (winner : string).
      (* invariant(player, `Player not found with id ${round.winner}`) *)

Inductive result (A : Type) : Type :=
  | Ok (a : A)
  | Throw (err : error).
Arguments Ok {A} a.
Arguments Throw {A} err.

(** A thrown error aborts the rest of the recipe: [x ← m; k] runs [k] on
    the value of [m], or rethrows. *)
#[global] Instance result_bind : MBind result := λ A B k m,
  match m with
  | Ok a => k a
  | Throw err => Throw err
  end.

(** [invariant(item, message)] for an item that is an object or undefined. *)
Definition invariant {A : Type} (item : option A) (message : error) : result A :=
  match item with
  | Some a => Ok a
  | None => Throw message
  end.

(** ** Data model *)

Module Player.
Record t : Type := mk {
  id : string;
  name : string;
  percentage : Z;
  controlled : bool;
}.
End Player.

Module Round.
Record t : Type := mk {
  id : string;
  name : string;
  order : list string;
  attempts : gmap string (list (option bool));
  activePlayer : nat;
  winner : option string;
}.

Definition set_attempts (a : gmap string (list (option bool))) (r : t) : t :=
  mk (id r) (name r) (order r) a (activePlayer r) (winner r).
Definition set_activePlayer (n : nat) (r : t) : t :=
  mk (id r) (name r) (order r) (attempts r) n (winner r).
Definition set_winner (w : option string) (r : t) : t :=
  mk (id r) (name r) (order r) (attempts r) (activePlayer r) w.
End Round.

Module Game.
Record t : Type := mk {
  id : string;
  players : list Player.t;
  rounds : list Round.t;
  winner : option Player.t;
  bestOf : nat;
  attempts : nat;
  activeRound : nat;
}.

Definition set_rounds (rs : list Round.t) (g : t) : t :=
  mk (id g) (players g) rs (winner g) (bestOf g) (attempts g) (activeRound g).
Definition set_winner (w : option Player.t) (g : t) : t :=
  mk (id g) (players g) (rounds g) w (bestOf g) (attempts g) (activeRound g).
Definition set_activeRound (n : nat) (g : t) : t :=
  mk (id g) (players g) (rounds g) (winner g) (bestOf g) (attempts g) n.
End Game.

(** [export const GAME]: the state before any [start]. *)
Definition GAME (gid : string) : Game.t :=
  {| Game.id := gid; Game.winner := None; Game.players := [];
     Game.rounds := []; Game.bestOf := 3; Game.attempts := 5;
     Game.activeRound := 0 |}.

Inductive Action : Type :=
  | simulate
  | make
  | miss
  | start (players : list Player.t) (attempts bestOf : nat).

(** What one call of the reducer reads from outside: [random k] is the
    value of [Math.round(Math.random() * 100)] at the [k]-th call of
    [randomMake], [getId] the value of [crypto.randomUUID()] (it is called
    at most once per action, by [createNextRound]). *)
Record Env : Type := mkEnv {
  random : nat → Z;
  getId : string;
}.

(** ** The helpers *)

Definition randomMake (random percentage : Z) : bool :=
  bool_decide (random ≤ percentage)%Z.

Definition getActiveRound (game : Game.t) : result Round.t :=
  invariant (Game.rounds game !! Game.activeRound game)
            (RoundNotFound (Game.activeRound game)).

(** [game.players.find((player) => player.id === playerId)] *)
Definition findPlayer (players : list Player.t) (playerId : string)
  : option Player.t :=
  snd <$> list_find (λ player, Player.id player = playerId) players.

Definition getActivePlayer (game : Game.t) : result Player.t :=
  round ← getActiveRound game;
  (* [round.order[round.activePlayer]] is undefined out of range, and no
     player has an undefined id *)
  invariant (playerId ← Round.order round !! Round.activePlayer round;
             findPlayer (Game.players game) playerId)
            (PlayerNotFound (Round.activePlayer round)).

(** Apply [f] to the round at index [idx], the way a write through the
    draft [game.rounds[idx]] does. *)
Definition updateRound (idx : nat) (f : Round.t → Round.t) (game : Game.t)
  : Game.t :=
  Game.set_rounds (alter f idx (Game.rounds game)) game.

(** The inner loop of [checkWinners]: [None] stands for the early
    [return []] at a pending attempt. *)
Fixpoint countMakes (attempts : list (option bool)) (total : nat) : option nat :=
  match attempts with
  | [] => Some total
  | None :: _ => None
  | Some true :: rest => countMakes rest (S total)
  | Some false :: rest => countMakes rest total
  end.

(** The outer loop of [checkWinners] over the entries of [round.attempts]. *)
Fixpoint checkWinners_loop (entries : list (string * list (option bool)))
    (max : nat) (winner : list string) : list string :=
  match entries with
  | [] => winner
  | (playerId, attempts) :: rest =>
      match countMakes attempts 0 with
      | None => []
      | Some total =>
          if decide (total = max) then
            checkWinners_loop rest max (winner ++ [playerId])
          else if decide (max < total) then
            checkWinners_loop rest total [playerId]
          else checkWinners_loop rest max winner
      end
  end.

Definition checkWinners (game : Game.t) : result (list string) :=
  round ← getActiveRound game;
  Ok (checkWinners_loop (map_to_list (Round.attempts round)) 0 []).

(** [all[player.id] = new Array(game.attempts).fill(null)] over the roster. *)
Definition freshAttempts (players : list Player.t) (attempts : nat)
  : gmap string (list (option bool)) :=
  foldl (λ all player, <[Player.id player := replicate attempts None]> all)
        ∅ players.

(** The object literal pushed by [createNextRound]. *)
Definition newRound (e : Env) (game : Game.t) : Round.t :=
  let order :=
    match last (Game.rounds game) with
    | Some previous => reverse (Round.order previous)
    | None => Player.id <$> Game.players game
    end in
  {| Round.id := getId e;
     Round.winner := None;
     Round.name := "Round #" +:+ pretty (length (Game.rounds game) + 1);
     Round.order := order;
     Round.activePlayer := 0;
     Round.attempts := freshAttempts (Game.players game) (Game.attempts game) |}.

Definition createNextRound (e : Env) (game : Game.t) : Game.t :=
  let round := newRound e game in
  Game.set_rounds (Game.rounds game ++ [round])
    (Game.set_activeRound (length (Game.rounds game)) game).

Definition overtime (game : Game.t) : result Game.t :=
  round ← getActiveRound game;
  Ok (updateRound (Game.activeRound game)
        (Round.set_attempts ((λ makes, makes ++ [None]) <$> Round.attempts round))
        game).

Definition isNull (attempt : option bool) : Prop := attempt = None.
#[global] Instance isNull_dec attempt : Decision (isNull attempt).
Proof. unfold isNull. apply _. Defined.

Definition hasAttemptsLeft (round : Round.t) : bool :=
  bool_decide (map_Exists (λ _ attempts, Exists isNull attempts)
                 (Round.attempts round)).

(** [if (round.winner)]: [null] and the empty string are falsy. *)
Definition truthy (winner : option string) : option string :=
  match winner with
  | Some w => if decide (w = "") then None else Some w
  | None => None
  end.

(** The property names that a plain object inherits from
    [Object.prototype] (ECMAScript, with its Annex B): [key in {}] is true
    of them, and of no other string. *)
Definition objectPrototype : list string :=
  ["constructor"; "__defineGetter__"; "__defineSetter__"; "hasOwnProperty";
   "__lookupGetter__"; "__lookupSetter__"; "isPrototypeOf";
   "propertyIsEnumerable"; "toString"; "valueOf"; "__proto__";
   "toLocaleString"].

Definition inherited (key : string) : bool :=
  bool_decide (key ∈ objectPrototype).

(** [Math.ceil(game.bestOf / 2)] on a natural number. *)
Definition winsToFinish (game : Game.t) : nat := (Game.bestOf game + 1) / 2.

(** The loop of [checkGameOver] over [game.rounds], [winsByPlayer] being
    the tally so far: the own properties of the object, [Some n] for the
    number [n] and [None] for [NaN].  [round.winner in winsByPlayer] is
    true of the keys written so far and of the names inherited from
    [Object.prototype]; on such a name [winsByPlayer[round.winner]++] reads
    the inherited member (a function, or the prototype for ["__proto__"]),
    whose numeric value is [NaN], and writes [NaN + 1]; [NaN] stays [NaN]
    under [++] and is never [=== winsToFinish].  (The write to
    ["__proto__"] is dropped by its setter; the next read finds the
    prototype again, with the same outcome as the [NaN] kept here.)  The
    boolean is the returned value, the game the draft after the call. *)
Fixpoint checkGameOver_loop (game : Game.t) (winsToFinish : nat)
    (rounds : list Round.t) (winsByPlayer : gmap string (option nat))
  : result (bool * Game.t) :=
  match rounds with
  | [] => Ok (false, game)
  | round :: rest =>
      match truthy (Round.winner round) with
      | None => checkGameOver_loop game winsToFinish rest winsByPlayer
      | Some winner =>
          let wins : option nat :=
            match winsByPlayer !! winner with
            | Some count => S <$> count
            | None => if inherited winner then None else Some 1
            end in
          let winsByPlayer := <[winner := wins]> winsByPlayer in
          if decide (wins = Some winsToFinish) then
            player ← invariant (findPlayer (Game.players game) winner)
                               (WinnerNotFound winner);
            Ok (true, Game.set_winner (Some player) game)
          else checkGameOver_loop game winsToFinish rest winsByPlayer
      end
  end.

Definition checkGameOver (game : Game.t) : result (bool * Game.t) :=
  checkGameOver_loop game (winsToFinish game) (Game.rounds game) ∅.

(** The tail of [endRound], after the winner/tie branches.  [round] is the
    active round on entry of [endRound] and [idx] its index: its [attempts],
    [order] and [activePlayer] have not been written since.
    [round.activePlayer === round.order.length - 1] is written with a
    successor, both sides being natural numbers.  The remainder by
    [round.order.length] is only reached with a non-empty [order]
    ([getActivePlayer_order]). *)
Definition advance (round : Round.t) (idx : nat) (game : Game.t) : Game.t :=
  let nextRound := idx + 1 in
  if hasAttemptsLeft round then
    updateRound idx
      (Round.set_activePlayer
         ((Round.activePlayer round + 1) `mod` length (Round.order round)))
      game
  else
    let isLastPlayer :=
      bool_decide (S (Round.activePlayer round) = length (Round.order round)) in
    let hasMoreRounds := bool_decide (nextRound < length (Game.rounds game)) in
    if isLastPlayer && hasMoreRounds then
      Game.set_activeRound nextRound
        (updateRound idx (Round.set_activePlayer 0) game)
    else game.

Definition endRound (e : Env) (game : Game.t) : result Game.t :=
  winners ← checkWinners game;
  round ← getActiveRound game;
  let idx := Game.activeRound game in
  if decide (1 < length winners) then
    (* TIE *)
    overtime game
  else if decide (length winners = 1) then
    (* WINNER *)
    let game := updateRound idx (Round.set_winner (winners !! 0)) game in
    '(over, game) ← checkGameOver game;
    if over : bool then Ok game
    else Ok (advance round idx (createNextRound e game))
  else Ok (advance round idx game).

(** The [for] loop of the [simulate] branch; [k] counts the calls of
    [randomMake] so far. *)
Fixpoint simulateLoop (random : nat → Z) (percentage : Z) (k : nat)
    (makes : list (option bool)) : list (option bool) :=
  match makes with
  | [] => []
  | Some b :: rest => Some b :: simulateLoop random percentage k rest
  | None :: rest =>
      Some (randomMake (random k) percentage)
        :: simulateLoop random percentage (S k) rest
  end.

(** [makes.findIndex((make) => make == null)], [None] for [-1]. *)
Definition findIndexNull (makes : list (option bool)) : option nat :=
  fst <$> list_find isNull makes.

(** The game after the active round's array of [playerId] has been written:
    [makes] aliases [game.rounds[game.activeRound].attempts[playerId]]. *)
Definition setMakes (playerId : string) (makes : list (option bool))
    (game : Game.t) : Game.t :=
  updateRound (Game.activeRound game)
    (λ round, Round.set_attempts (<[playerId := makes]> (Round.attempts round)) round)
    game.

(** [action.type === "make"] *)
Definition isMake (action : Action) : bool :=
  match action with
  | make => true
  | _ => false
  end.

Definition gameReducer (e : Env) (state : Game.t) (action : Action)
  : result Game.t :=
  match action with
  | simulate =>
      round ← getActiveRound state;
      player ← getActivePlayer state;
      if Player.controlled player then Ok state
      else
        makes ← invariant (Round.attempts round !! Player.id player)
                  (PlayerNotInRound (Player.id player) (Round.id round));
        endRound e
          (setMakes (Player.id player)
             (simulateLoop (random e) (Player.percentage player) 0 makes) state)
  | make | miss =>
      round ← getActiveRound state;
      player ← getActivePlayer state;
      if negb (Player.controlled player) then Ok state
      else
        makes ← invariant (Round.attempts round !! Player.id player)
                  (PlayerNotInRound (Player.id player) (Round.id round));
        nextMake ← invariant (findIndexNull makes) NoMoreMakes;
        let game :=
          setMakes (Player.id player)
            (<[nextMake := Some (isMake action)]> makes) state in
        if decide (S nextMake = length makes) then endRound e game
        else Ok game
  | start players attempts bestOf =>
      Ok (createNextRound e
            {| Game.id := Game.id state; Game.players := players;
               Game.rounds := Game.rounds state; Game.winner := Game.winner state;
               Game.bestOf := bestOf; Game.attempts := attempts;
               Game.activeRound := Game.activeRound state |})
  end.

(** ** Vocabulary of the properties *)

(** The actions that play: [start] has the precondition of being
    dispatched once, before any of them. *)
Definition isPlay (action : Action) : Prop :=
  match action with
  | start _ _ _ => False
  | _ => True
  end.

(** [action.type === "make" || action.type === "miss"] *)
Definition isShot (action : Action) : bool :=
  match action with
  | make | miss => true
  | _ => false
  end.

(** Total makes of an attempt sequence. *)
Definition total (makes : list (option bool)) : nat :=
  length (filter (λ attempt, attempt = Some true) makes).

(** No attempt of the round is pending. *)
Definition complete (attempts : gmap string (list (option bool))) : Prop :=
  ∀ playerId makes, attempts !! playerId = Some makes → None ∉ makes.

(** [playerId] holds the maximum total makes of the round. *)
Definition leads (attempts : gmap string (list (option bool)))
    (playerId : string) : Prop :=
  ∃ makes, attempts !! playerId = Some makes ∧
    ∀ other makes', attempts !! other = Some makes' → total makes' ≤ total makes.

(** Rounds won by [playerId] among [rounds]. *)
Definition wins (playerId : string) (rounds : list Round.t) : nat :=
  length (filter (λ round, Round.winner round = Some playerId) rounds).

(** The pending attempts of a sequence are its last ones. *)
Definition nullSuffix (makes : list (option bool)) : Prop :=
  ∀ i j, i ≤ j → j < length makes → makes !! i = Some None →
         makes !! j = Some None.

(** The winners of a round, as [checkWinners] computes them. *)
Definition winnersOf (attempts : gmap string (list (option bool))) : list string :=
  checkWinners_loop (map_to_list attempts) 0 [].

(** The ids whose wins [checkGameOver] counts: the empty string is falsy
    in [if (round.winner)], and the tally of a name inherited from
    [Object.prototype] is [NaN]. *)
Definition counted (playerId : string) : Prop :=
  playerId ≠ "" ∧ inherited playerId = false.

#[global] Instance counted_dec playerId : Decision (counted playerId).
Proof. unfold counted. apply _. Defined.

(** The winner of a round as the tally of [checkGameOver] sees it. *)
Definition tallied (winner : option string) : option string :=
  w ← truthy winner; if inherited w then None else Some w.

(** The loop of [checkGameOver] seen on the winners of the rounds alone:
    the id at which the tally first equals [winsToFinish], if any. *)
Fixpoint firstToFinish (winsToFinish : nat) (winners : list (option string))
    (winsByPlayer : gmap string nat) : option string :=
  match winners with
  | [] => None
  | winner :: rest =>
      match tallied winner with
      | None => firstToFinish winsToFinish rest winsByPlayer
      | Some w =>
          let wins := S (default 0 (winsByPlayer !! w)) in
          if decide (wins = winsToFinish) then Some w
          else firstToFinish winsToFinish rest (<[w := wins]> winsByPlayer)
      end
  end.

(** The tally after the loop of [checkGameOver] went through [winners]. *)
Fixpoint tally (winners : list (option string)) (winsByPlayer : gmap string nat)
  : gmap string nat :=
  match winners with
  | [] => winsByPlayer
  | winner :: rest =>
      match tallied winner with
      | None => tally rest winsByPlayer
      | Some w => tally rest (<[w := S (default 0 (winsByPlayer !! w))]> winsByPlayer)
      end
  end.

(** The own properties [winsByPlayer] of the loop of [checkGameOver] hold
    the tally [acc] of the counted ids, and [NaN] at most for inherited
    names. *)
Definition counts (acc : gmap string nat) (winsByPlayer : gmap string (option nat))
  : Prop :=
  ∀ key, if inherited key
         then winsByPlayer !! key = None ∨ winsByPlayer !! key = Some None
         else winsByPlayer !! key = Some <$> (acc !! key).

(** A match that has been won: the state [endRound] leaves when
    [checkGameOver] returns true. *)
Definition terminal (game : Game.t) : Prop :=
  ∃ round w player,
    getActiveRound game = Ok round ∧
    complete (Round.attempts round) ∧
    winnersOf (Round.attempts round) = [w] ∧
    Round.winner round = Some w ∧
    checkGameOver game = Ok (true, game) ∧
    getActivePlayer game = Ok player.

(** The active round is the last one: [init] are the rounds before it. *)
Definition lastRound (game : Game.t) (init : list Round.t) (round : Round.t)
  : Prop :=
  Game.rounds game = init ++ [round] ∧ Game.activeRound game = length init.

(** A round of a match between [players]: one attempt sequence per roster
    id, all of one length, pending attempts last. *)
Record wfRound (players : list Player.t) (round : Round.t) : Prop := mkWfRound {
  wf_keys : dom (Round.attempts round) =@{gset string}
              list_to_set (Player.id <$> players);
  wf_lengths : ∀ k1 k2 m1 m2,
    Round.attempts round !! k1 = Some m1 →
    Round.attempts round !! k2 = Some m2 → length m1 = length m2;
  wf_suffix : ∀ k makes,
    Round.attempts round !! k = Some makes → nullSuffix makes;
}.

(** What holds of every [started] state ([started_Inv]). *)
Record Inv (game : Game.t) : Prop := mkInv {
  inv_active : S (Game.activeRound game) = length (Game.rounds game);
  inv_rounds : Forall (wfRound (Game.players game)) (Game.rounds game);
  inv_open : Game.winner game = None →
    (∀ round, getActiveRound game = Ok round → Round.winner round = None) ∧
    firstToFinish (winsToFinish game) (Round.winner <$> Game.rounds game) ∅ = None;
  inv_over : Game.winner game ≠ None → terminal game;
}.

(** What a playing action makes of a match that is not won yet, [init]
    being the rounds before the active one: no round is decided; or the
    active round is decided for [w] and the match is won; or it is decided
    for [w] and a round is appended. *)
Definition outcome (game : Game.t) (init : list Round.t) (game' : Game.t)
  : Prop :=
  (∃ round', Game.rounds game' = init ++ [round'] ∧
     Round.winner round' = None ∧ Game.winner game' = None) ∨
  (∃ round' w player, Game.rounds game' = init ++ [round'] ∧
     Round.winner round' = Some w ∧ counted w ∧
     S (wins w init) = winsToFinish game ∧
     findPlayer (Game.players game) w = Some player ∧
     Game.winner game' = Some player) ∨
  (∃ round' next w, Game.rounds game' = init ++ [round'; next] ∧
     Round.winner round' = Some w ∧
     w ∈ Player.id <$> Game.players game ∧
     (¬ counted w ∨ S (wins w init) ≠ winsToFinish game) ∧
     Round.winner next = None ∧ Game.winner game' = None).


(** The states of a match: [GAME] after one [start], then any number of
    playing actions that did not throw. *)
Inductive started : Game.t → Prop :=
  | started_start e gid players attempts bestOf game :
      gameReducer e (GAME gid) (start players attempts bestOf) = Ok game →
      started game
  | started_play e game action game' :
      started game →
      isPlay action →
      gameReducer e game action = Ok game' →
      started game'.

(** ** Example matches *)

Definition ann : Player.t := Player.mk "a" "Ann" 50 true.
Definition bob : Player.t := Player.mk "b" "Bob" 50 false.
Definition cid : Player.t := Player.mk "c" "Cid" 50 true.

(** Every draw is [draw], every new id is ["round"]. *)
Definition dice (draw : Z) : Env := mkEnv (λ _, draw) "round".

(** Dispatch [actions] one after the other. *)
Fixpoint dispatch (e : Env) (state : Game.t) (actions : list Action)
  : result Game.t :=
  match actions with
  | [] => Ok state
  | action :: rest => state' ← gameReducer e state action; dispatch e state' rest
  end.

(** The state of a dispatch that did not throw. *)
Definition the (outcome : result Game.t) : Game.t :=
  match outcome with
  | Ok state => state
  | Throw _ => GAME ""
  end.

(** Ann and Cid, both controlled, one attempt per round. *)
Definition duel (bestOf : nat) (actions : list Action) : Game.t :=
  the (dispatch (dice 10) (GAME "game") (start [ann; cid] 1 bestOf :: actions)).

(** Ann and Cid, two attempts per round, best of three. *)
Definition longDuel (actions : list Action) : Game.t :=
  the (dispatch (dice 10) (GAME "game") (start [ann; cid] 2 3 :: actions)).

(** Bob, who is simulated, then Ann; two attempts per round. *)
Definition mixed (actions : list Action) : Game.t :=
  the (dispatch (dice 10) (GAME "game") (start [bob; ann] 2 3 :: actions)).

(** A best-of-one match, one attempt per round, between a controlled player
    of id [id] and Cid, after the make of the former and the miss of Cid. *)
Definition decider (id : string) : Game.t :=
  the (dispatch (dice 10) (GAME "game")
         [start [Player.mk id "Zoe" 50 true; cid] 1 1; make; miss]).

(** The first round of [duel] with the given attempts, turn and winner. *)
Definition duelRound (a c : list (option bool)) (activePlayer : nat)
    (winner : option string) : Round.t :=
  {| Round.id := "round"; Round.name := "Round #1"; Round.order := ["a"; "c"];
     Round.attempts := <["a" := a]> (<["c" := c]> ∅);
     Round.activePlayer := activePlayer; Round.winner := winner |}.

(** ** The queries of [game.ts] and the display logic of [App.tsx] *)

(** [getRoundById]: [None] stands for the thrown
    [Error(`Round with id ${id} not found.`)]. *)
Definition getRoundById (game : Game.t) (id : string) : option Round.t :=
  snd <$> list_find (λ round, Round.id round = id) (Game.rounds game).

Definition getGameAttempts (game : Game.t) : nat := Game.attempts game.

(** The pair [[makes, misses]] that [RoundDetails] computes with
    [attempts.reduce]: [total[0]] counts the makes, [total[1]] every attempt
    that is [true] or [false]. *)
Definition tallyAttempts (attempts : list (option bool)) : nat * nat :=
  foldl (λ total attempt,
           match attempt with
           | Some true => (S total.1, S total.2)
           | Some false => (total.1, S total.2)
           | None => total
           end)
        (0, 0) attempts.

(** [round.winner != null] in [RoundDetails]. *)
Definition hasWinner (round : Round.t) : bool :=
  bool_decide (Round.winner round ≠ None).

(** [players.find((player) => player.id === round.winner)] in
    [RoundDetails]: no player has the id [null]. *)
Definition crowned (players : list Player.t) (round : Round.t)
  : option Player.t :=
  winner ← Round.winner round; findPlayer players winner.

(** The row of [playerId] in [RoundDetails]: the player found for the id
    and that player's attempts; [None] stands for the thrown
    [Error(`Invalid game, player ${playerId} not found.`)] and for the
    [TypeError] of [attempts.reduce] on an undefined [attempts]. *)
Definition playerRow (players : list Player.t) (round : Round.t)
    (playerId : string) : option (Player.t * list (option bool)) :=
  player ← findPlayer players playerId;
  attempts ← Round.attempts round !! Player.id player;
  Some (player, attempts).

(** [makes.filter((make) => make != null).length === makes.length], the
    [disabled] attribute of the buttons of [Toolbar]. *)
Definition toolbarDisabled (makes : list (option bool)) : bool :=
  bool_decide (length (filter (λ make, make ≠ None) makes) = length makes).


(** ** More vocabulary *)

(** [make] for [true], [miss] for [false]. *)
Definition shot (outcome : bool) : Action := if outcome then make else miss.

(** [later] holds every attempt taken in [earlier], at the same place. *)
Definition keeps (earlier later : list (option bool)) : Prop :=
  ∀ i outcome, earlier !! i = Some (Some outcome) →
               later !! i = Some (Some outcome).

(** The number of pending attempts of a sequence. *)
Definition pending (makes : list (option bool)) : nat :=
  length (filter (λ make, make = None) makes).

(** The ids of the roster, in registration order. *)
Definition roster (game : Game.t) : list string :=
  Player.id <$> Game.players game.



(** [game'] is reached from [game] by playing actions that did not throw;
    each call of the reducer has its own draws and ids. *)
Inductive plays : Game.t → Game.t → Prop :=
  | plays_refl game : plays game game
  | plays_step e game game' action game'' :
      plays game game' →
      isPlay action →
      gameReducer e game' action = Ok game'' →
      plays game game''.

(** [round'] is [round] some actions later: same id, name and turn order,
    the same players' sequences, each holding the attempts already taken
    and being at least as long. *)
Definition extends (round round' : Round.t) : Prop :=
  Round.id round' = Round.id round ∧
  Round.name round' = Round.name round ∧
  Round.order round' = Round.order round ∧
  dom (Round.attempts round') =@{gset string} dom (Round.attempts round) ∧
  ∀ id makes, Round.attempts round !! id = Some makes →
    ∃ makes', Round.attempts round' !! id = Some makes' ∧
              keeps makes makes' ∧ length makes ≤ length makes'.

(** What a playing action returns on a match that is not won yet and whose
    active round [round] is the last one, after [init]: the state it got;
    or, the active player's sequence [makes] being replaced by [makes'],
    the game so written, followed by what [endRound] does when it runs. *)
Definition played (e : Env) (game : Game.t) (init : list Round.t)
    (round : Round.t) (game' : Game.t) : Prop :=
  game' = game ∨
  ∃ player makes makes',
    getActivePlayer game = Ok player ∧
    Round.attempts round !! Player.id player = Some makes ∧
    length makes' = length makes ∧ keeps makes makes' ∧
    let written :=
      Round.set_attempts (<[Player.id player := makes']> (Round.attempts round))
        round in
    let decided w := Round.set_winner (Some w) written in
    game' = Game.set_rounds (init ++ [written]) game ∨
    (1 < length (winnersOf (Round.attempts written)) ∧
     game' = Game.set_rounds
               (init ++ [Round.set_attempts
                           ((λ sequence, sequence ++ [None])
                              <$> Round.attempts written) written])
               game) ∨
    (winnersOf (Round.attempts written) = [] ∧
     hasAttemptsLeft written = true ∧
     game' = Game.set_rounds
               (init ++ [Round.set_activePlayer
                           ((Round.activePlayer written + 1)
                              `mod` length (Round.order written)) written])
               game) ∨
    (∃ w winner,
       winnersOf (Round.attempts written) = [w] ∧ counted w ∧
       S (wins w init) = winsToFinish game ∧
       findPlayer (Game.players game) w = Some winner ∧
       game' = Game.set_winner (Some winner)
                 (Game.set_rounds (init ++ [decided w]) game)) ∨
    (∃ w,
       winnersOf (Round.attempts written) = [w] ∧
       (¬ counted w ∨ S (wins w init) ≠ winsToFinish game) ∧
       game' = Game.set_activeRound (S (length init))
                 (Game.set_rounds
                    (init ++
                       [if decide (S (Round.activePlayer written)
                                   = length (Round.order written))
                        then Round.set_activePlayer 0 (decided w)
                        else decided w;
                        newRound e (Game.set_rounds (init ++ [decided w]) game)])
                    game)).

(** What holds of the round at index [i] of a started match between
    [players] with [attempts] attempts per round: the turn order alternates
    between the registration order and its reverse, the name numbers the
    round from 1, the turn is within the order, every sequence has at least
    [attempts] slots, and a winner is the sole leader of the round. *)
Record roundShape (players : list Player.t) (attempts : nat) (i : nat)
    (round : Round.t) : Prop := mkRoundShape {
  shape_order :
    Round.order round =
    if Nat.even i then Player.id <$> players else reverse (Player.id <$> players);
  shape_name : Round.name round = "Round #" +:+ pretty (i + 1);
  shape_turn : players ≠ [] → Round.activePlayer round < length (Round.order round);
  shape_long : ∀ id makes,
    Round.attempts round !! id = Some makes → attempts ≤ length makes;
  shape_leader : ∀ w,
    Round.winner round = Some w → winnersOf (Round.attempts round) = [w];
}.

(** What holds besides of every [started] state ([started_Shape]): every
    round before the last one is decided, and the winner of the match is
    the roster player whose id won the last round, that win being the one
    that was missing. *)
Record Shape (game : Game.t) : Prop := mkShape {
  shape_rounds : ∀ i round, Game.rounds game !! i = Some round →
    roundShape (Game.players game) (Game.attempts game) i round;
  shape_decided : ∀ i round, Game.rounds game !! i = Some round →
    S i < length (Game.rounds game) → is_Some (Round.winner round);
  shape_winner : ∀ player, Game.winner game = Some player →
    ∃ init round w,
      lastRound game init round ∧ Round.winner round = Some w ∧ counted w ∧
      findPlayer (Game.players game) w = Some player ∧
      S (wins w init) = winsToFinish game ∧
      firstToFinish (winsToFinish game) (Round.winner <$> init) ∅ = None;
}.

(** ** Attempt sequences *)

Lemma total_cons attempt makes :
  total (attempt :: makes) =
  (if decide (attempt = Some true) then 1 else 0) + total makes.
Proof.
  unfold total. case_decide.
  - by rewrite filter_cons_True.
  - by rewrite filter_cons_False.
Qed.

Lemma countMakes_total makes t :
  None ∉ makes → countMakes makes t = Some (t + total makes).
Proof.
  revert t. induction makes as [|[[]|] makes IH]; intros t Hn.
  - simpl. f_equal. unfold total. simpl. lia.
  - simpl. rewrite IH, total_cons; [f_equal; simpl; lia|].
    intros H. apply Hn. by right.
  - simpl. rewrite IH, total_cons; [f_equal; simpl; lia|].
    intros H. apply Hn. by right.
  - exfalso. apply Hn. by left.
Qed.

Lemma countMakes_pending makes t : None ∈ makes → countMakes makes t = None.
Proof.
  revert t. induction makes as [|[[]|] makes IH]; intros t Hn; simpl; try done.
  - by apply elem_of_nil in Hn.
  - apply IH. by apply elem_of_cons in Hn as [|].
  - apply IH. by apply elem_of_cons in Hn as [|].
Qed.

Lemma simulateLoop_length r p k makes :
  length (simulateLoop r p k makes) = length makes.
Proof.
  revert k. induction makes as [|[b|] makes IH]; intros k; simpl; by rewrite ?IH.
Qed.

Lemma simulateLoop_filled r p k makes : None ∉ simulateLoop r p k makes.
Proof.
  revert k. induction makes as [|[b|] makes IH]; intros k; simpl.
  - by intros ?%elem_of_nil.
  - intros [|]%elem_of_cons; [done|]. by eapply IH.
  - intros [|]%elem_of_cons; [done|]. by eapply IH.
Qed.

Lemma simulateLoop_keeps r p k makes i b :
  makes !! i = Some (Some b) → simulateLoop r p k makes !! i = Some (Some b).
Proof.
  revert k i. induction makes as [|[c|] makes IH]; intros k [|i]; simpl; try done.
  - apply IH.
  - apply IH.
Qed.

Lemma simulateLoop_id r p k makes :
  None ∉ makes → simulateLoop r p k makes = makes.
Proof.
  revert k. induction makes as [|[c|] makes IH]; intros k Hn; simpl.
  - done.
  - rewrite IH; [done|]. intros H. apply Hn. by right.
  - exfalso. apply Hn. by left.
Qed.

(** ** checkWinners *)

Section checkWinners_loop.
Implicit Types (entries : list (string * list (option bool)))
               (winner : list string).

Lemma checkWinners_loop_pending entries max winner :
  (∃ playerId makes, (playerId, makes) ∈ entries ∧ None ∈ makes) →
  checkWinners_loop entries max winner = [].
Proof.
  revert max winner.
  induction entries as [|[p a] rest IH]; intros max winner (k & m & Hin & Hn).
  - by apply elem_of_nil in Hin.
  - simpl. apply elem_of_cons in Hin as [[= -> ->]|Hin].
    + by rewrite countMakes_pending.
    + destruct (countMakes a 0); [|done].
      repeat case_decide; apply IH; eauto.
Qed.

(** The winners are the entries whose total is the greatest, together
    with the winners found so far when nothing exceeds their total. *)
Lemma checkWinners_loop_elem entries max winner k :
  (∀ playerId makes, (playerId, makes) ∈ entries → None ∉ makes) →
  k ∈ checkWinners_loop entries max winner ↔
    (k ∈ winner ∧ ∀ q mq, (q, mq) ∈ entries → total mq ≤ max) ∨
    (∃ mk, (k, mk) ∈ entries ∧ max ≤ total mk ∧
           ∀ q mq, (q, mq) ∈ entries → total mq ≤ total mk).
Proof.
  revert max winner.
  induction entries as [|[p a] rest IH]; intros max winner Hc.
  - simpl. split.
    + intros Hk. left. split; [done|]. by intros ?? ?%elem_of_nil.
    + intros [[? _]|(? & ?%elem_of_nil & _)]; done.
  - simpl. rewrite countMakes_total by (eapply Hc; left). simpl.
    assert (Hrest : ∀ playerId makes, (playerId, makes) ∈ rest → None ∉ makes)
      by (intros ?? ?; eapply Hc; by right).
    repeat case_decide; rewrite IH by done; clear IH.
    + (* the entry equals the maximum *)
      subst max. split.
      * intros [[[Hw|Hp%list_elem_of_singleton]%elem_of_app Hle]|(mk & Hin & Hm & Hle)].
        -- left. split; [done|]. intros q mq [[= -> ->]|?]%elem_of_cons; eauto.
        -- subst k. right. exists a. split; [left|split; [done|]].
           intros q mq [[= -> ->]|?]%elem_of_cons; eauto.
        -- right. exists mk. split; [by right|split; [done|]].
           intros q mq [[= -> ->]|?]%elem_of_cons; eauto.
      * intros [[Hw Hle]|(mk & [[= -> ->]|Hin]%elem_of_cons & Hm & Hle)].
        -- left. split; [apply elem_of_app; by left|].
           intros q mq ?. eapply Hle. by right.
        -- left. split; [apply elem_of_app; right; by left|].
           intros q mq ?. eapply Hle. by right.
        -- right. exists mk. split; [done|split; [done|]].
           intros q mq ?. eapply Hle. by right.
    + (* the entry exceeds the maximum *)
      split.
      * intros [[Hp%list_elem_of_singleton Hle]|(mk & Hin & Hm & Hle)].
        -- subst k. right. exists a. split; [left|split; [lia|]].
           intros q mq [[= -> ->]|?]%elem_of_cons; eauto.
        -- right. exists mk. split; [by right|split; [lia|]].
           intros q mq [[= -> ->]|?]%elem_of_cons; eauto.
      * intros [[Hw Hle]|(mk & [[= -> ->]|Hin]%elem_of_cons & Hm & Hle)].
        -- assert (total a ≤ max) by (eapply Hle; left). lia.
        -- left. split; [by left|]. intros q mq ?. eapply Hle. by right.
        -- right. exists mk. split; [done|].
           assert (total a ≤ total mk) by (eapply Hle; left).
           split; [done|]. intros q mq ?. eapply Hle. by right.
    + (* the entry is below the maximum *)
      split.
      * intros [[Hw Hle]|(mk & Hin & Hm & Hle)].
        -- left. split; [done|].
           intros q mq [[= -> ->]|?]%elem_of_cons; [lia|eauto].
        -- right. exists mk. split; [by right|split; [done|]].
           intros q mq [[= -> ->]|?]%elem_of_cons; [lia|eauto].
      * intros [[Hw Hle]|(mk & [[= -> ->]|Hin]%elem_of_cons & Hm & Hle)].
        -- left. split; [done|]. intros q mq ?. eapply Hle. by right.
        -- lia.
        -- right. exists mk. split; [done|split; [done|]].
           intros q mq ?. eapply Hle. by right.
Qed.

Lemma checkWinners_loop_NoDup entries max winner :
  NoDup (winner ++ entries.*1) → NoDup (checkWinners_loop entries max winner).
Proof.
  revert max winner.
  induction entries as [|[p a] rest IH]; intros max winner Hnd; simpl in *.
  - by rewrite app_nil_r in Hnd.
  - destruct (countMakes a 0) as [t|]; [|constructor].
    repeat case_decide; apply IH.
    + by rewrite <- app_assoc.
    + apply NoDup_app in Hnd as (_ & _ & Hnd). done.
    + rewrite NoDup_app in Hnd. destruct Hnd as (Hw & Hd & Hr).
      apply NoDup_cons in Hr as [? ?].
      apply NoDup_app. split; [done|]. split; [|done].
      intros x Hx Hx'. eapply Hd; [done|by right].
Qed.
End checkWinners_loop.

Lemma complete_dec attempts : Decision (complete attempts).
Proof.
  refine (cast_if (decide (map_Forall (λ _ makes, None ∉ makes) attempts)));
    done.
Defined.

Lemma not_complete attempts :
  ¬ complete attempts →
  ∃ playerId makes, attempts !! playerId = Some makes ∧ None ∈ makes.
Proof.
  intros Hn.
  assert (Hex : map_Exists (λ (_ : string) (makes : list (option bool)), ¬ (None ∉ makes))
            attempts).
  { apply map_not_Forall; [apply _|done]. }
  destruct Hex as (k & m & Hk & Hm). exists k, m. split; [done|].
  by apply dec_stable.
Qed.

Lemma winnersOf_pending attempts playerId makes :
  attempts !! playerId = Some makes → None ∈ makes → winnersOf attempts = [].
Proof.
  intros Hk Hn. apply checkWinners_loop_pending.
  exists playerId, makes. by rewrite elem_of_map_to_list.
Qed.

Lemma winnersOf_elem attempts k :
  complete attempts → k ∈ winnersOf attempts ↔ leads attempts k.
Proof.
  intros Hc. unfold winnersOf. rewrite checkWinners_loop_elem.
  - split.
    + intros [[?%elem_of_nil _]|(mk & Hin & _ & Hle)]; [done|].
      exists mk. split; [by apply elem_of_map_to_list|].
      intros q mq ?. apply (Hle q). by apply elem_of_map_to_list.
    + intros (mk & Hk & Hle). right. exists mk.
      split; [by apply elem_of_map_to_list|split; [lia|]].
      intros q mq ?%elem_of_map_to_list. eauto.
  - intros p m ?%elem_of_map_to_list. eauto.
Qed.

Lemma winnersOf_NoDup attempts : NoDup (winnersOf attempts).
Proof. apply checkWinners_loop_NoDup. simpl. apply NoDup_fst_map_to_list. Qed.

Lemma winnersOf_complete attempts :
  winnersOf attempts ≠ [] → complete attempts.
Proof.
  intros Hw. destruct (complete_dec attempts) as [|Hn]; [done|].
  apply not_complete in Hn as (k & m & ? & ?).
  exfalso. apply Hw. by eapply winnersOf_pending.
Qed.



Lemma hasAttemptsLeft_complete round :
  hasAttemptsLeft round = false ↔ complete (Round.attempts round).
Proof.
  unfold hasAttemptsLeft. rewrite bool_decide_eq_false. split.
  - intros Hn k m Hk Hin. apply Hn. exists k, m. split; [done|].
    apply Exists_exists. by exists None.
  - intros Hc (k & m & Hk & Hex). apply Exists_exists in Hex as (x & Hin & ->).
    by eapply Hc.
Qed.

Lemma hasAttemptsLeft_pending round playerId makes :
  Round.attempts round !! playerId = Some makes → None ∈ makes →
  hasAttemptsLeft round = true.
Proof.
  intros Hk Hn. destruct (hasAttemptsLeft round) eqn:E; [done|].
  apply hasAttemptsLeft_complete in E. by destruct (E _ _ Hk).
Qed.

(** ** checkGameOver *)

Lemma truthy_Some winner w : truthy winner = Some w ↔ winner = Some w ∧ w ≠ "".
Proof.
  unfold truthy. destruct winner as [x|]; [|by split; [|intros []]].
  case_decide; split; try done.
  - intros [[= ->] ?]. done.
  - intros [= ->]. done.
  - intros [[= ->] ?]. done.
Qed.

Lemma tallied_Some winner w : tallied winner = Some w ↔ winner = Some w ∧ counted w.
Proof.
  unfold tallied, counted. destruct (truthy winner) as [x|] eqn:Ht; simpl.
  - apply truthy_Some in Ht as [-> Hne].
    destruct (inherited x) eqn:Hx; split.
    + done.
    + intros [[= ->] [_ ?]]. congruence.
    + by intros [= ->].
    + by intros [[= ->] _].
  - split; [done|]. intros [-> [Hne _]].
    assert (truthy (Some w) = Some w) by (by apply truthy_Some). congruence.
Qed.

Lemma tallied_None_wins round v :
  tallied (Round.winner round) = None → counted v → Round.winner round ≠ Some v.
Proof.
  intros Ht Hv Hw. assert (tallied (Round.winner round) = Some v) as Hs
    by (by apply tallied_Some). congruence.
Qed.

Lemma tallied_counted w : counted w → tallied (Some w) = Some w.
Proof. intros Hw. by apply tallied_Some. Qed.

Lemma tallied_uncounted w : ¬ counted w → tallied (Some w) = None.
Proof.
  intros Hw. destruct (tallied (Some w)) as [x|] eqn:Ht; [|done].
  apply tallied_Some in Ht as [[= ->] ?]. done.
Qed.

Lemma counts_empty : counts ∅ ∅.
Proof. intros key. rewrite !lookup_empty. destruct (inherited key); auto. Qed.

Lemma checkGameOver_loop_counts game W rounds acc winsByPlayer :
  counts acc winsByPlayer →
  checkGameOver_loop game W rounds winsByPlayer =
  match firstToFinish W (Round.winner <$> rounds) acc with
  | None => Ok (false, game)
  | Some w =>
      player ← invariant (findPlayer (Game.players game) w) (WinnerNotFound w);
      Ok (true, Game.set_winner (Some player) game)
  end.
Proof.
  revert acc winsByPlayer.
  induction rounds as [|r rest IH]; intros acc winsByPlayer Hc; simpl; [done|].
  unfold tallied. destruct (truthy (Round.winner r)) as [w|]; simpl;
    [|by apply IH].
  pose proof (Hc w) as Hw. destruct (inherited w) eqn:Hin.
  - assert (match winsByPlayer !! w with
            | Some count => S <$> count
            | None => None
            end = None) as ->
      by (destruct Hw as [-> | ->]; done).
    rewrite decide_False by done. apply IH.
    intros key. pose proof (Hc key) as Hkey.
    destruct (decide (key = w)) as [->|Hne].
    + rewrite Hin, lookup_insert_eq. by right.
    + by rewrite lookup_insert_ne.
  - assert (match winsByPlayer !! w with
            | Some count => S <$> count
            | None => Some 1
            end = Some (S (default 0 (acc !! w)))) as ->
      by (rewrite Hw; by destruct (acc !! w)).
    destruct (decide (S (default 0 (acc !! w)) = W)) as [Heq|Hne].
    + rewrite decide_True by congruence. done.
    + rewrite decide_False by congruence. apply IH.
      intros key. pose proof (Hc key) as Hkey.
      destruct (decide (key = w)) as [->|Hkw].
      * by rewrite Hin, !lookup_insert_eq.
      * by rewrite !lookup_insert_ne.
Qed.

Lemma checkGameOver_loop_spec game W rounds :
  checkGameOver_loop game W rounds ∅ =
  match firstToFinish W (Round.winner <$> rounds) ∅ with
  | None => Ok (false, game)
  | Some w =>
      player ← invariant (findPlayer (Game.players game) w) (WinnerNotFound w);
      Ok (true, Game.set_winner (Some player) game)
  end.
Proof. apply checkGameOver_loop_counts, counts_empty. Qed.

Lemma firstToFinish_app W l1 l2 acc :
  firstToFinish W (l1 ++ l2) acc =
  match firstToFinish W l1 acc with
  | Some w => Some w
  | None => firstToFinish W l2 (tally l1 acc)
  end.
Proof.
  revert acc. induction l1 as [|x l1 IH]; intros acc; simpl; [done|].
  destruct (tallied x) as [w|]; [|apply IH].
  case_decide; [done|apply IH].
Qed.

Lemma wins_app w l1 l2 : wins w (l1 ++ l2) = wins w l1 + wins w l2.
Proof. unfold wins. by rewrite filter_app, length_app. Qed.

Lemma wins_cons w r l :
  wins w (r :: l) = (if decide (Round.winner r = Some w) then 1 else 0) + wins w l.
Proof.
  unfold wins. case_decide.
  - by rewrite filter_cons_True.
  - by rewrite filter_cons_False.
Qed.

Lemma tally_wins rounds acc w :
  counted w →
  default 0 (tally (Round.winner <$> rounds) acc !! w)
  = default 0 (acc !! w) + wins w rounds.
Proof.
  intros Hw. revert acc.
  induction rounds as [|r rest IH]; intros acc; simpl.
  - unfold wins. simpl. lia.
  - rewrite wins_cons.
    destruct (tallied (Round.winner r)) as [x|] eqn:Ht.
    + apply tallied_Some in Ht as [Hx ?]. rewrite IH.
      destruct (decide (x = w)) as [->|Hne].
      * rewrite lookup_insert_eq, decide_True by done. simpl. lia.
      * rewrite lookup_insert_ne, decide_False by congruence. lia.
    + rewrite IH, decide_False; [lia|]. by apply tallied_None_wins.
Qed.

(** With no finisher among [init], the round after them finishes the match
    exactly when its winner is counted and this is the win that was
    missing. *)
Lemma firstToFinish_snoc W init r :
  firstToFinish W (Round.winner <$> init) ∅ = None →
  firstToFinish W (Round.winner <$> (init ++ [r])) ∅ =
  match tallied (Round.winner r) with
  | Some w => if decide (S (wins w init) = W) then Some w else None
  | None => None
  end.
Proof.
  intros Hinit. rewrite fmap_app, firstToFinish_app, Hinit. simpl.
  destruct (tallied (Round.winner r)) as [w|] eqn:Ht; [|done].
  apply tallied_Some in Ht as [_ ?].
  rewrite tally_wins, lookup_empty by done. simpl.
  by case_decide.
Qed.

Lemma firstToFinish_init W init r :
  firstToFinish W (Round.winner <$> (init ++ [r])) ∅ = None →
  firstToFinish W (Round.winner <$> init) ∅ = None.
Proof.
  rewrite fmap_app, firstToFinish_app.
  by destruct (firstToFinish W (Round.winner <$> init) ∅).
Qed.

(** ** One call of [endRound], the active round being the last *)

Lemma lastRound_exists game :
  S (Game.activeRound game) = length (Game.rounds game) →
  ∃ init round, lastRound game init round.
Proof.
  intros Hlen. destruct (Game.rounds game) as [|r rs _] eqn:E using rev_ind.
  - done.
  - exists rs, r. split; [done|]. rewrite length_app in Hlen. simpl in Hlen. lia.
Qed.

Lemma lastRound_active game init round :
  lastRound game init round → getActiveRound game = Ok round.
Proof.
  intros [Hr Ha]. unfold getActiveRound. rewrite Hr, Ha.
  by rewrite list_lookup_middle.
Qed.

Lemma updateRound_last game init round f :
  lastRound game init round →
  updateRound (Game.activeRound game) f game
  = Game.set_rounds (init ++ [f round]) game.
Proof.
  intros [Hr Ha]. unfold updateRound. rewrite Hr, Ha. f_equal.
  replace (length init) with (length init + 0) at 1 by lia.
  by rewrite alter_app_r.
Qed.

Lemma setMakes_last game init round playerId makes :
  lastRound game init round →
  setMakes playerId makes game
  = Game.set_rounds
      (init ++ [Round.set_attempts (<[playerId := makes]> (Round.attempts round)) round])
      game.
Proof. intros Hl. unfold setMakes. by erewrite updateRound_last. Qed.

Lemma setMakes_lastRound game init round playerId makes :
  lastRound game init round →
  lastRound (setMakes playerId makes game) init
    (Round.set_attempts (<[playerId := makes]> (Round.attempts round)) round).
Proof.
  intros Hl. erewrite setMakes_last by done. destruct Hl as [Hr Ha].
  split; [done|]. simpl. done.
Qed.

Lemma endRound_last e game init round :
  lastRound game init round →
  endRound e game =
    let winners := winnersOf (Round.attempts round) in
    if decide (1 < length winners) then
      Ok (Game.set_rounds
            (init ++ [Round.set_attempts
                        ((λ makes, makes ++ [None]) <$> Round.attempts round) round])
            game)
    else if decide (length winners = 1) then
      let decided := Round.set_winner (winners !! 0) round in
      match firstToFinish (winsToFinish game)
              (Round.winner <$> (init ++ [decided])) ∅ with
      | Some w =>
          player ← invariant (findPlayer (Game.players game) w) (WinnerNotFound w);
          Ok (Game.set_winner (Some player)
                (Game.set_rounds (init ++ [decided]) game))
      | None =>
          let left :=
            if decide (S (Round.activePlayer round) = length (Round.order round))
            then Round.set_activePlayer 0 decided else decided in
          Ok (Game.set_activeRound (S (length init))
                (Game.set_rounds
                   (init ++ [left; newRound e (Game.set_rounds (init ++ [decided]) game)])
                   game))
      end
    else
      Ok (if hasAttemptsLeft round then
            Game.set_rounds
              (init ++ [Round.set_activePlayer
                          ((Round.activePlayer round + 1)
                             `mod` length (Round.order round)) round])
              game
          else game).
Proof.
  intros Hl. pose proof (lastRound_active _ _ _ Hl) as Hact.
  unfold endRound, checkWinners, overtime. rewrite Hact. simpl.
  fold (winnersOf (Round.attempts round)).
  set (winners := winnersOf (Round.attempts round)).
  destruct (decide (1 < length winners)) as [Htie|Htie].
  { by erewrite updateRound_last. }
  destruct (decide (length winners = 1)) as [Hone|Hone].
  - erewrite updateRound_last by done.
    unfold checkGameOver. rewrite checkGameOver_loop_spec. simpl.
    set (decided := Round.set_winner (winners !! 0) round).
    change (winsToFinish (Game.set_rounds (init ++ [decided]) game))
      with (winsToFinish game).
    destruct (firstToFinish _ _ _) as [w|].
    + destruct (findPlayer (Game.players game) w); done.
    + simpl. f_equal. unfold advance, createNextRound.
      assert (hasAttemptsLeft round = false) as ->.
      { apply hasAttemptsLeft_complete, winnersOf_complete.
        fold winners. by destruct winners. }
      destruct Hl as [Hr Ha]. simpl.
      rewrite !length_app. simpl.
      rewrite (bool_decide_eq_true_2 (_ < _)) by lia.
      rewrite andb_true_r.
      destruct game; simpl in *; subst.
      case_bool_decide; case_decide; try done.
      * unfold Game.set_activeRound, Game.set_rounds, updateRound; simpl.
        f_equal; [|lia].
        replace (length init) with (length init + 0) at 1 by lia.
        rewrite <- app_assoc. rewrite alter_app_r. done.
      * unfold Game.set_activeRound, Game.set_rounds; simpl.
        f_equal; [|lia]. by rewrite <- app_assoc.
  - simpl. f_equal. unfold advance.
    destruct (hasAttemptsLeft round).
    + by erewrite updateRound_last.
    + destruct Hl as [Hr Ha]. rewrite Hr, Ha, length_app. simpl.
      rewrite (bool_decide_eq_false_2 (_ < _)) by lia.
      by rewrite andb_false_r.
Qed.

(** ** Well-formed rounds *)

Lemma nullSuffix_replicate n : nullSuffix (replicate n None).
Proof.
  intros i j _ Hj _. rewrite length_replicate in Hj.
  by apply lookup_replicate_2.
Qed.

Lemma nullSuffix_filled makes : None ∉ makes → nullSuffix makes.
Proof.
  intros Hn i j _ _ Hi. exfalso. apply Hn.
  apply list_elem_of_lookup. eauto.
Qed.

Lemma nullSuffix_overtime makes : None ∉ makes → nullSuffix (makes ++ [None]).
Proof.
  intros Hn i j Hij Hj Hi. rewrite length_app in Hj. simpl in Hj.
  destruct (decide (i < length makes)) as [Hlt|Hge].
  - rewrite lookup_app_l in Hi by done. exfalso. apply Hn.
    apply list_elem_of_lookup. eauto.
  - assert (j = length makes) as -> by lia. by rewrite list_lookup_middle.
Qed.

Lemma findIndexNull_Some makes k :
  findIndexNull makes = Some k ↔
  makes !! k = Some None ∧ ∀ j, j < k → makes !! j ≠ Some None.
Proof.
  unfold findIndexNull. split.
  - intros Hf. destruct (list_find isNull makes) as [[i x]|] eqn:E; [|done].
    simpl in Hf. injection Hf as ->.
    apply list_find_Some in E as (Hk & Hx & Hbefore). red in Hx. subst x.
    split; [done|]. intros j Hj Hnull. by eapply Hbefore.
  - intros [Hk Hbefore].
    assert (list_find isNull makes = Some (k, None)) as ->; [|done].
    apply list_find_Some. split; [done|]. split; [done|].
    intros j y Hy Hj ->. by eapply Hbefore.
Qed.

Lemma findIndexNull_None makes : findIndexNull makes = None ↔ None ∉ makes.
Proof.
  unfold findIndexNull. rewrite fmap_None, list_find_None, Forall_forall.
  split.
  - intros H Hin. by apply (H None).
  - intros H x Hx ->. done.
Qed.

Lemma nullSuffix_fill makes k b :
  nullSuffix makes → findIndexNull makes = Some k →
  nullSuffix (<[k := Some b]> makes).
Proof.
  intros Hs [Hk Hbefore]%findIndexNull_Some i j Hij Hj Hi.
  rewrite length_insert in Hj.
  destruct (decide (i = k)) as [->|Hik].
  { rewrite list_lookup_insert_eq in Hi; [done|]. by eapply lookup_lt_Some. }
  rewrite list_lookup_insert_ne in Hi by done.
  assert (k < i).
  { destruct (decide (i < k)); [|lia]. by destruct (Hbefore i). }
  rewrite list_lookup_insert_ne by lia. by eapply Hs.
Qed.


Lemma freshAttempts_lookup players n k :
  freshAttempts players n !! k =
  if decide (k ∈ Player.id <$> players) then Some (replicate n None) else None.
Proof.
  unfold freshAttempts.
  assert (∀ acc : gmap string (list (option bool)),
    foldl (λ all player, <[Player.id player := replicate n None]> all) acc players !! k
    = if decide (k ∈ Player.id <$> players) then Some (replicate n None)
      else acc !! k) as Hgen.
  { induction players as [|p ps IH]; intros acc.
    - done.
    - cbn [foldl]. rewrite fmap_cons, IH. destruct (decide (k ∈ Player.id <$> ps)) as [Hin|Hin].
      + rewrite decide_True; [done|]. by right.
      + destruct (decide (k = Player.id p)) as [->|Hne].
        * rewrite decide_True by left. by rewrite lookup_insert_eq.
        * rewrite decide_False.
          -- by rewrite lookup_insert_ne.
          -- intros [?|?]%elem_of_cons; done. }
  rewrite Hgen. case_decide; [done|apply lookup_empty].
Qed.

Lemma wfRound_fresh e game players :
  Game.players game = players → wfRound players (newRound e game).
Proof.
  intros <-. split; simpl.
  - apply set_eq. intros k. rewrite elem_of_dom, elem_of_list_to_set.
    rewrite freshAttempts_lookup. case_decide; split; try done.
  - intros k1 k2 m1 m2. rewrite !freshAttempts_lookup.
    repeat case_decide; try done. by intros [= <-] [= <-].
  - intros k makes. rewrite freshAttempts_lookup.
    case_decide; [|done]. intros [= <-]. apply nullSuffix_replicate.
Qed.

Lemma wfRound_same players round round' :
  Round.attempts round' = Round.attempts round →
  wfRound players round → wfRound players round'.
Proof. intros Heq [? ? ?]. split; by rewrite Heq. Qed.

Lemma wfRound_write players round playerId makes makes' :
  wfRound players round →
  Round.attempts round !! playerId = Some makes →
  length makes' = length makes → nullSuffix makes' →
  wfRound players
    (Round.set_attempts (<[playerId := makes']> (Round.attempts round)) round).
Proof.
  intros [Hk Hl Hs] Hp Hlen Hsuf. split; simpl.
  - rewrite dom_insert_L, <- Hk.
    assert (playerId ∈ dom (Round.attempts round)) by (apply elem_of_dom; eauto).
    set_solver.
  - intros k1 k2 m1 m2. rewrite !lookup_insert.
    repeat case_decide; intros; simplify_eq; try rewrite Hlen; eauto.
  - intros k m. rewrite lookup_insert. case_decide; intros; simplify_eq; eauto.
Qed.

Lemma wfRound_overtime players round :
  wfRound players round → complete (Round.attempts round) →
  wfRound players
    (Round.set_attempts ((λ makes, makes ++ [None]) <$> Round.attempts round) round).
Proof.
  intros [Hk Hl Hs] Hc. split; simpl.
  - by rewrite dom_fmap_L.
  - intros k1 k2 m1 m2. rewrite !lookup_fmap.
    destruct (Round.attempts round !! k1) as [x1|] eqn:E1; [|done].
    destruct (Round.attempts round !! k2) as [x2|] eqn:E2; [|done].
    simpl. intros [= <-] [= <-]. rewrite !length_app. simpl.
    by rewrite (Hl _ _ _ _ E1 E2).
  - intros k m. rewrite lookup_fmap.
    destruct (Round.attempts round !! k) as [x|] eqn:E; [|done].
    simpl. intros [= <-]. apply nullSuffix_overtime. by eapply Hc.
Qed.

(** ** The invariant of started games *)

Lemma getActivePlayer_last game init round :
  lastRound game init round →
  getActivePlayer game =
  invariant (playerId ← Round.order round !! Round.activePlayer round;
             findPlayer (Game.players game) playerId)
            (PlayerNotFound (Round.activePlayer round)).
Proof.
  intros Hl. unfold getActivePlayer. by rewrite (lastRound_active _ _ _ Hl).
Qed.

(** [round.order] is not empty when [getActivePlayer] succeeds. *)
Lemma getActivePlayer_order game round player :
  getActiveRound game = Ok round → getActivePlayer game = Ok player →
  Round.activePlayer round < length (Round.order round).
Proof.
  unfold getActivePlayer. intros ->. simpl.
  destruct (Round.order round !! Round.activePlayer round) eqn:E; [|done].
  intros _. by eapply lookup_lt_Some.
Qed.

Lemma Inv_start e gid players attempts bestOf game :
  gameReducer e (GAME gid) (start players attempts bestOf) = Ok game → Inv game.
Proof.
  intros Heq. unfold gameReducer in Heq. injection Heq as <-. split; simpl.
  - done.
  - constructor; [|constructor]. by apply wfRound_fresh.
  - intros _. split; [|done]. unfold getActiveRound. simpl. by intros ? [= <-].
  - done.
Qed.

Lemma Inv_setMakes game init round playerId makes makes' :
  Inv game → Game.winner game = None → lastRound game init round →
  Round.attempts round !! playerId = Some makes →
  length makes' = length makes → nullSuffix makes' →
  Inv (setMakes playerId makes' game).
Proof.
  intros [Ha Hr Ho Hv] Hw Hl Hp Hlen Hs.
  erewrite setMakes_last by done.
  pose proof (lastRound_active _ _ _ Hl) as Hact.
  destruct (Ho Hw) as [Hnone Hfirst]. destruct Hl as [Hrs Hidx].
  split; simpl.
  - rewrite Hrs, !length_app in *. done.
  - rewrite Hrs in Hr. apply Forall_app in Hr as [Hinit Hlast].
    apply Forall_app. split; [done|]. constructor; [|constructor].
    eapply wfRound_write; eauto. by inversion Hlast.
  - intros _. split.
    + unfold getActiveRound. simpl. rewrite Hidx, list_lookup_middle by done.
      intros ? [= <-]. simpl. eauto.
    + rewrite Hrs in Hfirst. by rewrite fmap_app in *.
  - done.
Qed.

Lemma Inv_endRound e game player game' :
  Inv game → Game.winner game = None → getActivePlayer game = Ok player →
  endRound e game = Ok game' → Inv game'.
Proof.
  intros HI Hw Hp. pose proof HI as [Ha Hr Ho Hv].
  destruct (lastRound_exists _ Ha) as (init & round & Hl).
  pose proof (lastRound_active _ _ _ Hl) as Hact.
  destruct (Ho Hw) as [Hnone Hfirst]. specialize (Hnone _ Hact).
  rewrite (endRound_last _ _ _ _ Hl). cbv zeta.
  pose proof Hl as [Hrs Hidx].
  rewrite Hrs in Hr. apply Forall_app in Hr as [Hinit Hlast].
  rewrite Forall_singleton in Hlast.
  rewrite Hrs in Hfirst.
  destruct (decide (1 < length (winnersOf (Round.attempts round)))) as [Htie|Htie].
  { (* overtime *)
    intros [= <-]. split; simpl.
    - rewrite Hrs, !length_app in *. done.
    - apply Forall_app. split; [done|]. apply Forall_singleton.
      apply wfRound_overtime; [done|]. apply winnersOf_complete.
      intros E. rewrite E in Htie. simpl in Htie. lia.
    - intros _. split.
      + unfold getActiveRound. simpl. rewrite Hidx, list_lookup_middle by done.
        by intros ? [= <-].
      + by rewrite fmap_app in *.
    - done. }
  destruct (decide (length (winnersOf (Round.attempts round)) = 1)) as [Hone|Hone].
  - (* a winner *)
    destruct (winnersOf (Round.attempts round)) as [|w [|]] eqn:Ews; try done.
    assert (Hc : complete (Round.attempts round)).
    { apply winnersOf_complete. by rewrite Ews. }
    simpl.
    destruct (firstToFinish (winsToFinish game)
                (Round.winner <$> init ++ [Round.set_winner (Some w) round]) ∅)
      as [w'|] eqn:Ef.
    + (* the match is won *)
      destruct (findPlayer (Game.players game) w') as [p'|] eqn:Efind;
        [|done].
      simpl. intros [= <-]. split; simpl.
      * rewrite Hrs, !length_app in *. done.
      * apply Forall_app. split; [done|]. apply Forall_singleton.
        eapply wfRound_same; [|exact Hlast]; done.
      * done.
      * intros _. exists (Round.set_winner (Some w) round), w, player.
        split; [|split; [done|split; [done|split; [done|split]]]].
        -- unfold getActiveRound. simpl. by rewrite Hidx, list_lookup_middle.
        -- unfold checkGameOver. rewrite checkGameOver_loop_spec. simpl.
           change (winsToFinish (Game.set_winner _ _)) with (winsToFinish game).
           by rewrite Ef, Efind.
        -- rewrite (getActivePlayer_last _ _ _ Hl) in Hp.
           rewrite (getActivePlayer_last _ init (Round.set_winner (Some w) round));
             [exact Hp|by split].
    + (* the next round *)
      intros [= <-]. split; simpl.
      * rewrite !length_app. simpl. lia.
      * apply Forall_app. split; [done|].
        constructor; [|constructor; [|constructor]].
        -- eapply wfRound_same; [|exact Hlast]. by case_decide.
        -- by apply wfRound_fresh.
      * intros _. split.
        -- unfold getActiveRound. simpl.
           rewrite (lookup_app_r init) by lia.
           replace (S (length init) - length init) with 1 by lia.
           by intros ? [= <-].
        -- change (winsToFinish _) with (winsToFinish game).
           assert (Round.winner
                     (if decide (S (Round.activePlayer round) = length (Round.order round))
                      then Round.set_activePlayer 0 (Round.set_winner (Some w) round)
                      else Round.set_winner (Some w) round) = Some w) as Hwin
             by (by case_decide).
           rewrite fmap_app in *. simpl in *. rewrite Hwin.
           change [Some w; None] with ([Some w] ++ [@None string]).
           by rewrite app_assoc, firstToFinish_app, Ef.
      * done.
  - (* undecided *)
    intros [= <-]. destruct (hasAttemptsLeft round); [|done].
    split; simpl.
    + rewrite Hrs, !length_app in *. done.
    + apply Forall_app. split; [done|]. apply Forall_singleton.
      eapply wfRound_same; [|exact Hlast]; done.
    + intros _. split.
      * unfold getActiveRound. simpl. rewrite Hidx, list_lookup_middle by done.
        by intros ? [= <-].
      * by rewrite fmap_app in *.
    + done.
Qed.

(** ** One call of the reducer *)

Lemma findPlayer_Some players playerId player :
  findPlayer players playerId = Some player →
  player ∈ players ∧ Player.id player = playerId.
Proof.
  unfold findPlayer. destruct (list_find _ players) as [[i p]|] eqn:E; [|done].
  simpl. intros [= <-]. apply list_find_Some in E as (Hi & Hp & _).
  split; [|done]. apply list_elem_of_lookup. eauto.
Qed.

Lemma getActivePlayer_roster game player :
  getActivePlayer game = Ok player → player ∈ Game.players game.
Proof.
  unfold getActivePlayer. destruct (getActiveRound game) as [r|]; [|done]. simpl.
  destruct (Round.order r !! Round.activePlayer r) as [pid|]; [|done]. simpl.
  destruct (findPlayer (Game.players game) pid) eqn:E; [|done].
  intros [= <-]. by apply findPlayer_Some in E as [? _].
Qed.

(** Every roster player has an attempt sequence in a well-formed round. *)
Lemma wfRound_makes players round player :
  wfRound players round → player ∈ players →
  ∃ makes, Round.attempts round !! Player.id player = Some makes.
Proof.
  intros [Hk _ _] Hp. apply elem_of_dom. rewrite Hk.
  apply elem_of_list_to_set, list_elem_of_fmap. eauto.
Qed.

Lemma gameReducer_simulate e state round player makes :
  getActiveRound state = Ok round → getActivePlayer state = Ok player →
  Player.controlled player = false →
  Round.attempts round !! Player.id player = Some makes →
  gameReducer e state simulate =
  endRound e
    (setMakes (Player.id player)
       (simulateLoop (random e) (Player.percentage player) 0 makes) state).
Proof. intros Hr Hp Hc Hm. simpl. by rewrite Hr, Hp; simpl; rewrite Hc, Hm. Qed.

Lemma gameReducer_shot e state action round player makes nextMake :
  action = make ∨ action = miss →
  getActiveRound state = Ok round → getActivePlayer state = Ok player →
  Player.controlled player = true →
  Round.attempts round !! Player.id player = Some makes →
  findIndexNull makes = Some nextMake →
  gameReducer e state action =
  let game :=
    setMakes (Player.id player) (<[nextMake := Some (isMake action)]> makes) state in
  if decide (S nextMake = length makes) then endRound e game else Ok game.
Proof.
  intros [-> | ->] Hr Hp Hc Hm Hk; simpl;
    by rewrite Hr, Hp; simpl; rewrite Hc, Hm; simpl; rewrite Hk.
Qed.

(** The ways a playing action returns a state. *)
Lemma gameReducer_play e state action state' :
  isPlay action → gameReducer e state action = Ok state' →
  ∃ round player,
    getActiveRound state = Ok round ∧ getActivePlayer state = Ok player ∧
    (state' = state ∨
     ∃ makes makes',
       Round.attempts round !! Player.id player = Some makes ∧
       length makes' = length makes ∧
       ((action = simulate ∧
         makes' = simulateLoop (random e) (Player.percentage player) 0 makes ∧
         endRound e (setMakes (Player.id player) makes' state) = Ok state') ∨
        (∃ nextMake,
           (action = make ∨ action = miss) ∧
           findIndexNull makes = Some nextMake ∧
           makes' = <[nextMake := Some (isMake action)]> makes ∧
           if decide (S nextMake = length makes)
           then endRound e (setMakes (Player.id player) makes' state) = Ok state'
           else state' = setMakes (Player.id player) makes' state))).
Proof.
  intros Hplay Hred.
  destruct (getActiveRound state) as [round|] eqn:Hr;
    [|by destruct action; try (by destruct Hplay);
         unfold gameReducer in Hred; rewrite Hr in Hred].
  destruct (getActivePlayer state) as [player|] eqn:Hp;
    [|by destruct action; try (by destruct Hplay);
         unfold gameReducer in Hred; rewrite Hr, ?Hp in Hred].
  exists round, player. split; [done|split; [done|]].
  destruct (Player.controlled player) eqn:Hc;
    destruct action; try (by destruct Hplay); unfold gameReducer in Hred;
    rewrite Hr, Hp in Hred; simpl in Hred; rewrite Hc in Hred; simpl in Hred;
    try (left; congruence).
  - destruct (Round.attempts round !! Player.id player) as [makes|] eqn:Hm; [|done].
    simpl in Hred.
    destruct (findIndexNull makes) as [k|] eqn:Hk; [|done]. simpl in Hred.
    right. eexists makes, _. split; [done|]. split; [apply length_insert|].
    right. exists k. split; [by left|]. split; [done|]. split; [done|].
    simpl. destruct (decide (S k = length makes)); [done|congruence].
  - destruct (Round.attempts round !! Player.id player) as [makes|] eqn:Hm; [|done].
    simpl in Hred.
    destruct (findIndexNull makes) as [k|] eqn:Hk; [|done]. simpl in Hred.
    right. eexists makes, _. split; [done|]. split; [apply length_insert|].
    right. exists k. split; [by right|]. split; [done|]. split; [done|].
    simpl. destruct (decide (S k = length makes)); [done|congruence].
  - destruct (Round.attempts round !! Player.id player) as [makes|] eqn:Hm; [|done].
    simpl in Hred.
    right. eexists makes, _. split; [done|]. split; [apply simulateLoop_length|].
    left. done.
Qed.

Lemma setMakes_id game round playerId makes :
  getActiveRound game = Ok round →
  Round.attempts round !! playerId = Some makes →
  setMakes playerId makes game = game.
Proof.
  unfold getActiveRound, setMakes, updateRound. intros Hr Hm.
  destruct (Game.rounds game !! Game.activeRound game) as [r|] eqn:E; [|done].
  injection Hr as ->.
  set (f := λ round : Round.t,
         Round.set_attempts (<[playerId := makes]> (Round.attempts round)) round).
  assert (alter f (Game.activeRound game) (Game.rounds game) = Game.rounds game)
    as ->; [|by destruct game].
  transitivity (alter id (Game.activeRound game) (Game.rounds game));
    [|by apply list_alter_id].
  apply list_alter_ext; [|done]. intros x Hx. rewrite E in Hx.
  injection Hx as <-. unfold f. rewrite insert_id by done. by destruct round.
Qed.

(** [endRound] on a match that has been won changes nothing. *)
Lemma terminal_endRound e game :
  S (Game.activeRound game) = length (Game.rounds game) →
  terminal game → endRound e game = Ok game.
Proof.
  intros Ha (round & w & player & Hr & Hc & Hw & Hwin & Hover & Hp).
  destruct (lastRound_exists _ Ha) as (init & round' & Hl).
  pose proof (lastRound_active _ _ _ Hl) as Hr'.
  assert (round' = round) as -> by congruence.
  rewrite (endRound_last _ _ _ _ Hl), Hw. simpl.
  assert (Round.set_winner (Some w) round = round) as ->
    by (destruct round; simpl in *; by subst).
  unfold checkGameOver in Hover. rewrite checkGameOver_loop_spec in Hover.
  destruct Hl as [Hrs Hidx]. rewrite <- Hrs.
  destruct (firstToFinish _ _ _) as [w'|]; [|done].
  destruct (findPlayer (Game.players game) w') as [p'|]; [|done].
  simpl in *. injection Hover as Hg. rewrite <- Hg at 3.
  by destruct game.
Qed.

Lemma terminal_complete game round :
  terminal game → getActiveRound game = Ok round →
  complete (Round.attempts round).
Proof.
  intros (r & w & p & Hr & Hc & _) Hr'. rewrite Hr in Hr'. by injection Hr' as <-.
Qed.

(** A playing action from a won match returns the state it got, if any. *)
Lemma terminal_play e game action game' :
  Inv game → Game.winner game ≠ None → isPlay action →
  gameReducer e game action = Ok game' → game' = game.
Proof.
  intros [Ha Hwf Ho Hv] Hw Hplay Hred. specialize (Hv Hw).
  apply gameReducer_play in Hred as (round & player & Hr & Hp & Hcases); [|done].
  pose proof (terminal_complete _ _ Hv Hr) as Hc.
  destruct Hcases as [->|(makes & makes' & Hm & Hlen & Hcases)]; [done|].
  destruct Hcases as [(-> & -> & Hend)|(k & _ & Hk & _)].
  - rewrite simulateLoop_id in Hend by (by eapply Hc).
    erewrite setMakes_id in Hend by done.
    rewrite terminal_endRound in Hend by done. congruence.
  - exfalso. apply findIndexNull_Some in Hk as [Hk _].
    eapply Hc; [done|]. apply list_elem_of_lookup. eauto.
Qed.

Lemma getActivePlayer_setMakes game playerId makes :
  getActivePlayer (setMakes playerId makes game) = getActivePlayer game.
Proof.
  unfold getActivePlayer, getActiveRound, setMakes, updateRound. simpl.
  rewrite list_lookup_alter_eq.
  by destruct (Game.rounds game !! Game.activeRound game).
Qed.

Lemma Inv_play e game action game' :
  Inv game → isPlay action → gameReducer e game action = Ok game' → Inv game'.
Proof.
  intros HI Hplay Hred.
  destruct (Game.winner game) as [p|] eqn:Hw.
  { erewrite (terminal_play _ _ _ game'); eauto. by rewrite Hw. }
  pose proof HI as [Ha Hwf _ _].
  destruct (lastRound_exists _ Ha) as (init & round & Hl).
  pose proof (lastRound_active _ _ _ Hl) as Hr.
  apply gameReducer_play in Hred as (round' & player & Hr' & Hp & Hcases); [|done].
  assert (round' = round) as -> by congruence.
  destruct Hcases as [->|(makes & makes' & Hm & Hlen & Hcases)]; [done|].
  assert (Hround : wfRound (Game.players game) round).
  { destruct Hl as [Hrs _]. rewrite Hrs in Hwf.
    apply Forall_app in Hwf as [_ Hwf]. by rewrite Forall_singleton in Hwf. }
  destruct Hcases as [(-> & -> & Hend)|(k & _ & Hk & -> & Hend)].
  - eapply Inv_endRound; [| | |exact Hend].
    + eapply Inv_setMakes; eauto.
      apply nullSuffix_filled, simulateLoop_filled.
    + by erewrite setMakes_last.
    + by rewrite getActivePlayer_setMakes.
  - assert (Inv (setMakes (Player.id player)
                   (<[k := Some (isMake action)]> makes) game)) as HI'.
    { eapply Inv_setMakes; eauto.
      apply nullSuffix_fill; [|done]. by eapply wf_suffix. }
    case_decide; [|by subst].
    eapply Inv_endRound; [exact HI'| | |exact Hend].
    + by erewrite setMakes_last.
    + by rewrite getActivePlayer_setMakes.
Qed.

Theorem started_Inv game : started game → Inv game.
Proof.
  induction 1 as [e gid players attempts bestOf game Hstart
                 |e game action game' _ IH Hplay Hred].
  - by eapply Inv_start.
  - by eapply Inv_play.
Qed.

(** ** The branches of [endRound] *)

Lemma findPlayer_roster players playerId :
  playerId ∈ Player.id <$> players → is_Some (findPlayer players playerId).
Proof.
  intros (p & Hid & Hp)%list_elem_of_fmap. unfold findPlayer.
  destruct (list_find_elem_of (λ player, Player.id player = playerId) players p)
    as [[i x] Hx]; [done..|].
  rewrite Hx. by eexists.
Qed.

Lemma endRound_tie e game init round :
  lastRound game init round →
  1 < length (winnersOf (Round.attempts round)) →
  endRound e game =
  Ok (Game.set_rounds
        (init ++ [Round.set_attempts
                    ((λ makes, makes ++ [None]) <$> Round.attempts round) round])
        game).
Proof.
  intros Hl Htie. rewrite (endRound_last _ _ _ _ Hl). cbv zeta.
  by rewrite decide_True.
Qed.

Lemma endRound_undecided e game init round :
  lastRound game init round →
  winnersOf (Round.attempts round) = [] →
  endRound e game =
  Ok (if hasAttemptsLeft round then
        Game.set_rounds
          (init ++ [Round.set_activePlayer
                      ((Round.activePlayer round + 1)
                         `mod` length (Round.order round)) round])
          game
      else game).
Proof.
  intros Hl Hws. rewrite (endRound_last _ _ _ _ Hl), Hws. done.
Qed.

Lemma endRound_won e game init round w :
  lastRound game init round →
  wfRound (Game.players game) round →
  firstToFinish (winsToFinish game) (Round.winner <$> init) ∅ = None →
  winnersOf (Round.attempts round) = [w] →
  counted w → S (wins w init) = winsToFinish game →
  ∃ player,
    findPlayer (Game.players game) w = Some player ∧
    endRound e game =
    Ok (Game.set_winner (Some player)
          (Game.set_rounds (init ++ [Round.set_winner (Some w) round]) game)).
Proof.
  intros Hl Hwf Hinit Hws Hw Hwins.
  assert (Hc : complete (Round.attempts round)).
  { apply winnersOf_complete. by rewrite Hws. }
  destruct (findPlayer_roster (Game.players game) w) as [player Hfind].
  { assert (leads (Round.attempts round) w) as (m & Hm & _).
    { apply winnersOf_elem; [done|]. rewrite Hws. by left. }
    assert (w ∈ dom (Round.attempts round)) as Hin by (apply elem_of_dom; eauto).
    rewrite (wf_keys _ _ Hwf) in Hin. by apply elem_of_list_to_set in Hin. }
  exists player. split; [done|].
  rewrite (endRound_last _ _ _ _ Hl), Hws. simpl.
  rewrite firstToFinish_snoc by done.
  change (Round.winner (Round.set_winner (Some w) round)) with (Some w).
  rewrite tallied_counted, decide_True by done. simpl. by rewrite Hfind.
Qed.

Lemma endRound_next e game init round w :
  lastRound game init round →
  firstToFinish (winsToFinish game) (Round.winner <$> init) ∅ = None →
  winnersOf (Round.attempts round) = [w] →
  ¬ counted w ∨ S (wins w init) ≠ winsToFinish game →
  endRound e game =
  Ok (Game.set_activeRound (S (length init))
        (Game.set_rounds
           (init ++
              [if decide (S (Round.activePlayer round) = length (Round.order round))
               then Round.set_activePlayer 0 (Round.set_winner (Some w) round)
               else Round.set_winner (Some w) round;
               newRound e
                 (Game.set_rounds (init ++ [Round.set_winner (Some w) round]) game)])
           game)).
Proof.
  intros Hl Hinit Hws Hw.
  rewrite (endRound_last _ _ _ _ Hl), Hws. simpl.
  rewrite firstToFinish_snoc by done.
  change (Round.winner (Round.set_winner (Some w) round)) with (Some w).
  destruct (decide (counted w)) as [Hc|Hc].
  - rewrite tallied_counted by done. rewrite decide_False; [done|].
    by destruct Hw.
  - by rewrite tallied_uncounted.
Qed.

(** What [Inv] gives on a match that is not won yet. *)
Lemma Inv_open game init round :
  Inv game → Game.winner game = None → lastRound game init round →
  Round.winner round = None ∧ wfRound (Game.players game) round ∧
  Forall (wfRound (Game.players game)) init ∧
  firstToFinish (winsToFinish game) (Round.winner <$> init) ∅ = None.
Proof.
  intros [Ha Hwf Ho Hv] Hw Hl. destruct (Ho Hw) as [Hnone Hfirst].
  split; [by eapply Hnone, lastRound_active|].
  destruct Hl as [Hrs _]. rewrite Hrs in *.
  apply Forall_app in Hwf as [Hinit Hlast]. rewrite Forall_singleton in Hlast.
  split; [done|]. split; [done|]. by eapply firstToFinish_init.
Qed.





(** ** A playing action on a match that is not won yet *)

(** [winsToFinish] is the ceiling of [bestOf / 2]. *)
Lemma winsToFinish_ceil game :
  Game.bestOf game ≤ 2 * winsToFinish game < Game.bestOf game + 2.
Proof.
  unfold winsToFinish.
  pose proof (Nat.div_mod_eq (Game.bestOf game + 1) 2).
  pose proof (Nat.mod_upper_bound (Game.bestOf game + 1) 2). lia.
Qed.

(** [endRound] on a match that is not won yet: either no round is
    decided, or the active round is decided and the match is won, or it is
    decided and a round is appended.  The rounds before the active one are
    kept. *)
Lemma endRound_open e game game' init round :
  Inv game → Game.winner game = None → lastRound game init round →
  endRound e game = Ok game' →
  outcome game init game'.
Proof.
  intros HI Hw Hl Hend.
  destruct (Inv_open _ _ _ HI Hw Hl) as (Hnone & Hwf & _ & Hfirst).
  destruct (decide (1 < length (winnersOf (Round.attempts round)))) as [Htie|Htie].
  { rewrite (endRound_tie e _ init _ Hl Htie) in Hend.
    injection Hend as <-. left. eexists. by split. }
  destruct (winnersOf (Round.attempts round)) as [|w [|]] eqn:Ews.
  - rewrite (endRound_undecided e _ init _ Hl Ews) in Hend.
    injection Hend as <-. left.
    destruct (hasAttemptsLeft round); [eexists; by split|].
    exists round. by destruct Hl.
  - assert (Hroster : w ∈ Player.id <$> Game.players game).
    { assert (leads (Round.attempts round) w) as (m & Hm & _).
      { apply winnersOf_elem; [|rewrite Ews; by left].
        apply winnersOf_complete. by rewrite Ews. }
      assert (w ∈ dom (Round.attempts round)) as Hin by (apply elem_of_dom; eauto).
      rewrite (wf_keys _ _ Hwf) in Hin. by apply elem_of_list_to_set in Hin. }
    destruct (decide (counted w)) as [Hne|Hnot]; last first.
    { rewrite (endRound_next e _ init _ w Hl Hfirst Ews) in Hend by (by left).
      injection Hend as <-. right. right. eexists _, _, w. split; [done|].
      split; [by case_decide|]. split; [done|]. by split; [left|]. }
    destruct (decide (S (wins w init) = winsToFinish game)) as [Hwins|Hwins].
    + destruct (endRound_won e _ init _ w Hl Hwf Hfirst Ews Hne Hwins)
        as (player & Hfind & Heq).
      rewrite Heq in Hend. injection Hend as <-. right. left.
      by eexists _, w, player.
    + rewrite (endRound_next e _ init _ w Hl Hfirst Ews) in Hend by (by right).
      injection Hend as <-. right. right. eexists _, _, w. split; [done|].
      split; [by case_decide|]. split; [done|]. by split; [right|].
  - simpl in Htie. lia.
Qed.

Lemma play_open e game action game' init round :
  Inv game → Game.winner game = None → lastRound game init round →
  isPlay action → gameReducer e game action = Ok game' →
  outcome game init game'.
Proof.
  intros HI Hw Hl Hplay Hred.
  destruct (Inv_open _ _ _ HI Hw Hl) as (Hnone & Hwf & _ & Hfirst).
  pose proof (lastRound_active _ _ _ Hl) as Hr.
  apply gameReducer_play in Hred as (round' & player & Hr' & Hp & Hcases); [|done].
  assert (round' = round) as -> by congruence.
  destruct Hcases as [->|(makes & makes' & Hm & Hlen & Hcases)].
  { left. exists round. by destruct Hl. }
  pose proof (setMakes_lastRound _ _ _ (Player.id player) makes' Hl) as Hl1.
  assert (HI1 : Inv (setMakes (Player.id player) makes' game)).
  { eapply Inv_setMakes; eauto.
    destruct Hcases as [(_ & -> & _)|(k & _ & Hk & -> & _)].
    - apply nullSuffix_filled, simulateLoop_filled.
    - apply nullSuffix_fill; [|done]. by eapply wf_suffix. }
  assert (Hw1 : Game.winner (setMakes (Player.id player) makes' game) = None)
    by done.
  assert (Hend : ∀ state,
    endRound e (setMakes (Player.id player) makes' game) = Ok state →
    outcome game init state).
  { intros state Hstate. exact (endRound_open e _ state init _ HI1 Hw1 Hl1 Hstate). }
  destruct Hcases as [(_ & _ & Hred)|(k & _ & _ & _ & Hred)]; [by apply Hend|].
  destruct (decide (S k = length makes)); [by apply Hend|].
  left. subst game'. erewrite setMakes_last by done. eexists. by split.
Qed.

(** ** Reading the active round after a write *)

Lemma getActiveRound_updateRound game round f :
  getActiveRound game = Ok round →
  getActiveRound (updateRound (Game.activeRound game) f game) = Ok (f round).
Proof.
  unfold getActiveRound, updateRound. simpl. rewrite list_lookup_alter_eq.
  destruct (Game.rounds game !! Game.activeRound game); [|done].
  by intros [= ->].
Qed.

Lemma getActiveRound_setMakes game round playerId makes :
  getActiveRound game = Ok round →
  getActiveRound (setMakes playerId makes game)
  = Ok (Round.set_attempts (<[playerId := makes]> (Round.attempts round)) round).
Proof. intros Hr. unfold setMakes. by erewrite getActiveRound_updateRound. Qed.

(** While an attempt of the round is pending, [endRound] passes the turn. *)
Lemma endRound_pending e game round playerId makes :
  getActiveRound game = Ok round →
  Round.attempts round !! playerId = Some makes → None ∈ makes →
  endRound e game =
  Ok (updateRound (Game.activeRound game)
        (Round.set_activePlayer
           ((Round.activePlayer round + 1) `mod` length (Round.order round)))
        game).
Proof.
  intros Hr Hm Hn. unfold endRound, checkWinners. rewrite Hr. simpl.
  fold (winnersOf (Round.attempts round)).
  rewrite (winnersOf_pending _ _ _ Hm Hn). simpl.
  unfold advance. by rewrite (hasAttemptsLeft_pending _ _ _ Hm Hn).
Qed.

Lemma advance_attempts round idx game current :
  Game.rounds game !! idx = Some current →
  ∃ round', Game.rounds (advance round idx game) !! idx = Some round' ∧
            Round.attempts round' = Round.attempts current.
Proof.
  intros Hlook. unfold advance.
  destruct (hasAttemptsLeft round); [|destruct (_ && _)]; simpl;
    rewrite ?list_lookup_alter_eq, Hlook; by eexists.
Qed.

(** Whatever the state, [endRound] leaves the attempts of the round that
    was active as they are, or with the overtime slot. *)
Lemma endRound_attempts e game game' round :
  getActiveRound game = Ok round → endRound e game = Ok game' →
  ∃ round', Game.rounds game' !! Game.activeRound game = Some round' ∧
    (Round.attempts round' = Round.attempts round ∨
     Round.attempts round'
     = (λ makes, makes ++ [None]) <$> Round.attempts round).
Proof.
  intros Hr. unfold endRound, checkWinners, overtime. rewrite Hr. simpl.
  assert (Hlook : Game.rounds game !! Game.activeRound game = Some round).
  { unfold getActiveRound in Hr.
    destruct (Game.rounds game !! Game.activeRound game); [|done].
    by injection Hr as ->. }
  set (winners := checkWinners_loop _ _ _).
  destruct (decide (1 < length winners)).
  { intros [= <-]. simpl. rewrite list_lookup_alter_eq, Hlook.
    eexists. split; [done|]. by right. }
  destruct (decide (length winners = 1)).
  - unfold checkGameOver. rewrite checkGameOver_loop_spec.
    destruct (firstToFinish _ _ _) as [w|].
    + simpl. destruct (findPlayer (Game.players game) w); [|done].
      simpl. intros [= <-]. simpl. rewrite list_lookup_alter_eq, Hlook.
      eexists. split; [done|]. by left.
    + simpl. intros [= <-].
      destruct (advance_attempts round (Game.activeRound game)
                  (createNextRound e
                     (updateRound (Game.activeRound game)
                        (Round.set_winner (winners !! 0)) game))
                  (Round.set_winner (winners !! 0) round))
        as (round' & Hlook' & Hatt).
      { simpl. rewrite lookup_app_l.
        - by rewrite list_lookup_alter_eq, Hlook.
        - rewrite length_alter. by eapply lookup_lt_Some. }
      exists round'. split; [done|]. by left.
  - intros [= <-].
    destruct (advance_attempts round (Game.activeRound game) game round Hlook)
      as (round' & Hlook' & Hatt).
    exists round'. split; [done|]. by left.
Qed.


(** * Properties of the reducer *)



(** Where [checkGameOver] counts the ids of all the players, the match is
    won at the majority.  In a started match that is not won yet, when a
    playing action decides the active round for a player [w] and this
    brings the rounds won by [w] to [winsToFinish] = ceil(bestOf / 2), the
    reducer sets [game.winner] to the roster player of id [w] and appends
    no round.  With [bestOf = 3] the match is won by an action exactly when
    the action decides the round for a player whose wins then number 2. *)
Lemma counted_majority_wins_the_match e game action game' :
  started game →
  Forall (λ player, counted (Player.id player)) (Game.players game) →
  Game.winner game = None →
  isPlay action → gameReducer e game action = Ok game' →
  (∀ round' w,
     Game.rounds game' !! Game.activeRound game = Some round' →
     Round.winner round' = Some w →
     wins w (Game.rounds game') = winsToFinish game →
     ∃ player, findPlayer (Game.players game) w = Some player ∧
               Game.winner game' = Some player ∧
               length (Game.rounds game') = length (Game.rounds game)) ∧
  (Game.bestOf game = 3 →
     Game.winner game' ≠ None ↔
     ∃ round' w,
       Game.rounds game' !! Game.activeRound game = Some round' ∧
       Round.winner round' = Some w ∧
       wins w (Game.rounds game') = 2).
Proof.
  intros Hst Hids Hw Hplay Hred. pose proof (started_Inv _ Hst) as HI.
  destruct (lastRound_exists _ (inv_active _ HI)) as (init & round & Hl).
  pose proof Hl as [Hrs Hidx].
  assert (Hgen : ∀ round' w,
     Game.rounds game' !! Game.activeRound game = Some round' →
     Round.winner round' = Some w →
     wins w (Game.rounds game') = winsToFinish game →
     ∃ player, findPlayer (Game.players game) w = Some player ∧
               Game.winner game' = Some player ∧
               length (Game.rounds game') = length (Game.rounds game)).
  { intros round' w Hlook Hwin Hwins.
    destruct (play_open _ _ _ _ _ _ HI Hw Hl Hplay Hred)
      as [(r1 & Hrs' & Hnone & _)
         |[(r1 & w1 & p1 & Hrs' & Hwin1 & _ & _ & Hfind & Hgw)
          |(r1 & next & w1 & Hrs' & Hwin1 & Hroster & Hnot & Hnext & _)]];
      rewrite Hrs', Hidx in Hlook.
    - rewrite list_lookup_middle in Hlook by done. congruence.
    - rewrite list_lookup_middle in Hlook by done.
      assert (w1 = w) as -> by congruence.
      exists p1. by rewrite Hrs, Hrs', !length_app.
    - rewrite (list_lookup_middle init [next]) in Hlook by done.
      assert (w1 = w) as -> by congruence.
      exfalso. rewrite Hrs', wins_app, !wins_cons in Hwins.
      rewrite decide_True, decide_False in Hwins by congruence.
      unfold wins in Hwins at 2. simpl in Hwins.
      destruct Hnot as [Hnc|Hnot]; [|apply Hnot; lia].
      apply Hnc. apply list_elem_of_fmap in Hroster as (p & -> & Hp).
      by apply (proj1 (Forall_forall _ _) Hids p Hp). }
  split; [exact Hgen|]. intros Hbest.
  assert (HW : winsToFinish game = 2) by (unfold winsToFinish; by rewrite Hbest).
  split.
  - intros Hwon.
    destruct (play_open _ _ _ _ _ _ HI Hw Hl Hplay Hred)
      as [(r1 & _ & _ & ?)
         |[(r1 & w1 & p1 & Hrs' & Hwin1 & Hne & Hwins & _ & _)
          |(r1 & next & w1 & _ & _ & _ & _ & _ & ?)]]; try done.
    exists r1, w1. rewrite Hrs', Hidx, list_lookup_middle by done.
    split; [done|]. split; [done|].
    rewrite wins_app, wins_cons, decide_True by done.
    unfold wins at 2. simpl. lia.
  - intros (round' & w & Hlook & Hwin & Hwins).
    rewrite <- HW in Hwins.
    destruct (Hgen _ _ Hlook Hwin Hwins) as (p & _ & -> & _). done.
Qed.


(** C4, as amended.  For a controlled active player with a pending attempt,
    a [make] or [miss] that fills a slot other than the player's last one
    leaves [activePlayer] as it is (the player keeps the turn); one that
    fills the player's last slot while some player still has a pending
    attempt advances [activePlayer] by one position modulo the number of
    players in [order].  In both cases the active round stays the same. *)
Theorem C4_turn_passes_after_last_slot e game action round player makes nextMake :
  action = make ∨ action = miss →
  getActiveRound game = Ok round → getActivePlayer game = Ok player →
  Player.controlled player = true →
  Round.attempts round !! Player.id player = Some makes →
  findIndexNull makes = Some nextMake →
  let filled :=
    <[Player.id player := <[nextMake := Some (isMake action)]> makes]>
      (Round.attempts round) in
  (S nextMake ≠ length makes →
     ∃ game' round',
       gameReducer e game action = Ok game' ∧
       Game.activeRound game' = Game.activeRound game ∧
       getActiveRound game' = Ok round' ∧
       Round.attempts round' = filled ∧
       Round.activePlayer round' = Round.activePlayer round) ∧
  (S nextMake = length makes →
     (∃ playerId sequence, filled !! playerId = Some sequence ∧ None ∈ sequence) →
     ∃ game' round',
       gameReducer e game action = Ok game' ∧
       Game.activeRound game' = Game.activeRound game ∧
       getActiveRound game' = Ok round' ∧
       Round.attempts round' = filled ∧
       Round.activePlayer round'
       = (Round.activePlayer round + 1) `mod` length (Round.order round)).
Proof.
  intros Hact Hr Hp Hc Hm Hk filled.
  rewrite (gameReducer_shot e _ _ _ _ _ _ Hact Hr Hp Hc Hm Hk). cbv zeta.
  pose proof (getActiveRound_setMakes _ _ (Player.id player)
                (<[nextMake := Some (isMake action)]> makes) Hr) as Hr1.
  split.
  - intros Hlast. rewrite decide_False by done.
    eexists _, _. split; [done|]. split; [done|]. split; [exact Hr1|]. done.
  - intros Hlast (q & sequence & Hq & Hpend). rewrite decide_True by done.
    rewrite (endRound_pending e _ _ q sequence Hr1 Hq Hpend).
    eexists _, _. split; [done|]. split; [done|]. split.
    + change (Game.activeRound game) with
        (Game.activeRound
           (setMakes (Player.id player)
              (<[nextMake := Some (isMake action)]> makes) game)).
      by apply getActiveRound_updateRound.
    + done.
Qed.


(** C6. When the active player is not controlled (and has an attempt
    sequence in the active round), one [simulate] writes a sequence of the
    same length with no pending slot, in which the attempts already taken
    are kept and every pending slot holds the outcome of its own random
    draw, and then runs [endRound] on the game so written, whatever the
    other players' sequences are.  The state returned, if any, holds that
    sequence for the player, followed by the overtime slot when [endRound]
    found a tie. *)
Theorem C6_simulate_fills_all_then_endRound e game round player makes :
  getActiveRound game = Ok round → getActivePlayer game = Ok player →
  Player.controlled player = false →
  Round.attempts round !! Player.id player = Some makes →
  ∃ makes' written,
    (makes' = simulateLoop (random e) (Player.percentage player) 0 makes) ∧
    length makes' = length makes ∧
    (None ∉ makes') ∧
    (∀ i b, makes !! i = Some (Some b) → makes' !! i = Some (Some b)) ∧
    getActiveRound (setMakes (Player.id player) makes' game) = Ok written ∧
    Round.attempts written !! Player.id player = Some makes' ∧
    (∀ other, other ≠ Player.id player →
       Round.attempts written !! other = Round.attempts round !! other) ∧
    gameReducer e game simulate
    = endRound e (setMakes (Player.id player) makes' game) ∧
    (∀ game', gameReducer e game simulate = Ok game' →
       ∃ round', Game.rounds game' !! Game.activeRound game = Some round' ∧
         (Round.attempts round' !! Player.id player = Some makes' ∨
          Round.attempts round' !! Player.id player = Some (makes' ++ [None]))).
Proof.
  intros Hr Hp Hc Hm.
  pose proof (gameReducer_simulate e _ _ _ _ Hr Hp Hc Hm) as Hred.
  pose proof (getActiveRound_setMakes _ _ (Player.id player)
                (simulateLoop (random e) (Player.percentage player) 0 makes) Hr)
    as Hr1.
  eexists _, _. split; [done|].
  split; [apply simulateLoop_length|].
  split; [apply simulateLoop_filled|].
  split; [intros i b; apply simulateLoop_keeps|].
  split; [exact Hr1|].
  split; [simpl; by rewrite lookup_insert_eq|].
  split; [intros other Hne; simpl; by rewrite lookup_insert_ne|].
  split; [exact Hred|].
  intros game' Hok. rewrite Hred in Hok.
  destruct (endRound_attempts e _ _ _ Hr1 Hok) as (round' & Hlook & Hatt).
  exists round'. split; [exact Hlook|].
  destruct Hatt as [-> | ->]; simpl.
  - left. by rewrite lookup_insert_eq.
  - right. by rewrite lookup_fmap, lookup_insert_eq.
Qed.

(** C7. When there is an active player, [make] and [miss] return the state
    they got if that player is not controlled, and [simulate] returns the
    state it got if that player is controlled. *)
Theorem C7_ineligible_action_is_noop e game player :
  getActivePlayer game = Ok player →
  (Player.controlled player = false →
     gameReducer e game make = Ok game ∧ gameReducer e game miss = Ok game) ∧
  (Player.controlled player = true → gameReducer e game simulate = Ok game).
Proof.
  intros Hp.
  assert (∃ round, getActiveRound game = Ok round) as [round Hr].
  { unfold getActivePlayer in Hp.
    destruct (getActiveRound game); [eauto|done]. }
  split; intros Hc; unfold gameReducer; rewrite Hr, Hp; simpl; by rewrite Hc.
Qed.

(** C8, as amended.  In a started match with a non-null [game.winner],
    there is an active player; [simulate], and [make] and [miss] when that
    player is not controlled, return the state they got; [make] and [miss]
    when that player is controlled throw "no more makes left".  No playing
    action returns a different state. *)
Theorem C8_won_match_is_frozen e game action :
  started game → Game.winner game ≠ None → isPlay action →
  ∃ player,
    getActivePlayer game = Ok player ∧
    gameReducer e game action =
    if Player.controlled player && isShot action
    then Throw NoMoreMakes else Ok game.
Proof.
  intros Hst Hw Hplay. pose proof (started_Inv _ Hst) as HI.
  pose proof (inv_over _ HI Hw) as Ht.
  destruct Ht as (round & w & player & Hr & Hfull & Hws & Hwin & Hover & Hp).
  exists player. split; [done|].
  assert (Ht : terminal game) by (by exists round, w, player).
  assert (Hwf : wfRound (Game.players game) round).
  { destruct (lastRound_exists _ (inv_active _ HI)) as (init & round' & Hl).
    assert (round' = round) as ->.
    { pose proof (lastRound_active _ _ _ Hl). congruence. }
    pose proof (inv_rounds _ HI) as Hall. destruct Hl as [Hrs _].
    rewrite Hrs in Hall. apply Forall_app in Hall as [_ Hall].
    by rewrite Forall_singleton in Hall. }
  destruct (wfRound_makes _ _ _ Hwf (getActivePlayer_roster _ _ Hp))
    as [makes Hm].
  assert (Hnone : findIndexNull makes = None).
  { apply findIndexNull_None. by eapply Hfull. }
  destruct (Player.controlled player) eqn:Hc; destruct action; try done; simpl.
  - by rewrite Hr, Hp; simpl; rewrite Hc.
  - rewrite Hr, Hp; simpl. rewrite Hc, Hm; simpl. by rewrite Hnone.
  - rewrite Hr, Hp; simpl. rewrite Hc, Hm; simpl. by rewrite Hnone.
  - rewrite Hr, Hp; simpl. rewrite Hc, Hm; simpl.
    rewrite simulateLoop_id by (by eapply Hfull).
    erewrite setMakes_id by done.
    apply terminal_endRound; [apply (inv_active _ HI)|done].
  - by rewrite Hr, Hp; simpl; rewrite Hc.
  - by rewrite Hr, Hp; simpl; rewrite Hc.
Qed.

(** C10. With no round in the game, [make], [miss] and [simulate] throw
    the error of [getActiveRound]. *)
Theorem C10_play_before_start_throws e game action :
  Game.rounds game = [] → isPlay action →
  gameReducer e game action = Throw (RoundNotFound (Game.activeRound game)).
Proof.
  intros Hrs Hplay.
  assert (getActiveRound game = Throw (RoundNotFound (Game.activeRound game)))
    as Hr by (unfold getActiveRound; by rewrite Hrs).
  destruct action; try done; unfold gameReducer; by rewrite Hr.
Qed.

(** * The properties on example matches *)

Lemma started_dispatch e gid players attempts bestOf actions game :
  Forall isPlay actions →
  dispatch e (GAME gid) (start players attempts bestOf :: actions) = Ok game →
  started game.
Proof.
  intros Hplay. cbn [dispatch].
  destruct (gameReducer e (GAME gid) (start players attempts bestOf))
    as [state|] eqn:Hstart; [|done]. simpl.
  assert (Hst : started state) by (by eapply started_start).
  clear Hstart. revert state Hst.
  induction Hplay as [|action rest Ha Hrest IH]; intros state Hst; simpl.
  - by intros [= <-].
  - destruct (gameReducer e state action) as [state'|] eqn:Hred; [|done].
    simpl. apply IH. by eapply started_play.
Qed.

Lemma winnersOf_sole_inv attempts w :
  winnersOf attempts = [w] →
  complete attempts ∧ leads attempts w ∧ ∀ q, leads attempts q → q = w.
Proof.
  intros Hws.
  assert (Hc : complete attempts) by (apply winnersOf_complete; by rewrite Hws).
  split; [done|]. split.
  - apply winnersOf_elem; [done|]. rewrite Hws. by left.
  - intros q Hq%winnersOf_elem; [|done]. rewrite Hws in Hq.
    by apply list_elem_of_singleton in Hq.
Qed.


Ltac run := vm_compute; reflexivity.

Lemma started_duel bestOf actions game :
  Forall isPlay actions →
  dispatch (dice 10) (GAME "game") (start [ann; cid] 1 bestOf :: actions) = Ok game →
  started game.
Proof. apply started_dispatch. Qed.



Lemma counted_majority_example :
  ∃ game',
    gameReducer (dice 10) (duel 1 [make]) miss = Ok game' ∧
    Game.winner game' = Some ann ∧
    length (Game.rounds game') = 1.
Proof.
  assert (Hst : started (duel 1 [make])).
  { apply (started_duel 1 [make]); [repeat constructor|run]. }
  assert (Hw : Game.winner (duel 1 [make]) = None) by run.
  assert (Hred : gameReducer (dice 10) (duel 1 [make]) miss
                 = Ok (duel 1 [make; miss])) by run.
  assert (Hids : Forall (λ player, counted (Player.id player))
                    (Game.players (duel 1 [make]))).
  { repeat constructor; done. }
  destruct (counted_majority_wins_the_match (dice 10) (duel 1 [make]) miss
              (duel 1 [make; miss]) Hst Hids Hw I Hred) as [Hgen _].
  destruct (Hgen (duelRound [Some true] [Some false] 1 (Some "a")) "a")
    as (player & Hfind & Hgw & Hlen); [run|reflexivity|run|].
  exists (duel 1 [make; miss]). split; [exact Hred|].
  split; [|exact Hlen]. rewrite Hgw. rewrite <- Hfind. run.
Defined.

Lemma C4_witness :
  (∃ game' round',
     gameReducer (dice 10) (longDuel []) make = Ok game' ∧
     getActiveRound game' = Ok round' ∧
     Round.activePlayer round' = 0) ∧
  (∃ game' round',
     gameReducer (dice 10) (duel 3 []) make = Ok game' ∧
     getActiveRound game' = Ok round' ∧
     Round.activePlayer round' = 1).
Proof.
  split.
  - assert (Hr : getActiveRound (longDuel [])
                 = Ok (duelRound [None; None] [None; None] 0 None)) by run.
    assert (Hp : getActivePlayer (longDuel []) = Ok ann) by run.
    assert (Hm : Round.attempts (duelRound [None; None] [None; None] 0 None)
                   !! Player.id ann = Some [None; None]) by run.
    assert (Hk : findIndexNull [@None bool; None] = Some 0) by run.
    destruct (C4_turn_passes_after_last_slot (dice 10) (longDuel []) make
                (duelRound [None; None] [None; None] 0 None) ann [None; None] 0
                (or_introl eq_refl) Hr Hp eq_refl Hm Hk) as [Hkeep _].
    destruct Hkeep as (game' & round' & Hred & _ & Hr' & _ & Hap);
      [simpl; lia|].
    exists game', round'. split; [exact Hred|]. split; [exact Hr'|exact Hap].
  - assert (Hr : getActiveRound (duel 3 [])
                 = Ok (duelRound [None] [None] 0 None)) by run.
    assert (Hp : getActivePlayer (duel 3 []) = Ok ann) by run.
    assert (Hm : Round.attempts (duelRound [None] [None] 0 None)
                   !! Player.id ann = Some [None]) by run.
    assert (Hk : findIndexNull [@None bool] = Some 0) by run.
    destruct (C4_turn_passes_after_last_slot (dice 10) (duel 3 []) make
                (duelRound [None] [None] 0 None) ann [None] 0
                (or_introl eq_refl) Hr Hp eq_refl Hm Hk) as [_ Hpass].
    destruct Hpass as (game' & round' & Hred & _ & Hr' & _ & Hap);
      [reflexivity|exists "c", [None]; split; [run|left]|].
    exists game', round'. split; [exact Hred|]. split; [exact Hr'|exact Hap].
Defined.

(** C4 as stated fails: with two attempts per round, the first [make] of the
    controlled active player leaves [activePlayer] at 0, although the round
    is undecided and one position further modulo 2 is 1. *)
Lemma C4_counterexample :
  started (longDuel []) ∧
  getActiveRound (longDuel [])
  = Ok (duelRound [None; None] [None; None] 0 None) ∧
  getActivePlayer (longDuel []) = Ok ann ∧
  Player.controlled ann = true ∧
  ∃ game' round',
    gameReducer (dice 10) (longDuel []) make = Ok game' ∧
    getActiveRound game' = Ok round' ∧
    Round.activePlayer round' = 0 ∧
    (0 + 1) `mod` length (Round.order (duelRound [None; None] [None; None] 0 None))
    = 1.
Proof.
  split.
  { apply (started_dispatch (dice 10) "game" [ann; cid] 2 3 []);
      [constructor|run]. }
  split; [run|]. split; [run|]. split; [reflexivity|].
  exists (longDuel [make]), (duelRound [Some true; None] [None; None] 0 None).
  split; [run|]. split; [run|]. split; reflexivity.
Qed.


Lemma C6_witness :
  ∃ round,
    getActiveRound (mixed []) = Ok round ∧
    gameReducer (dice 10) (mixed []) simulate
    = endRound (dice 10) (setMakes "b" [Some true; Some true] (mixed [])).
Proof.
  assert (Hr : ∃ round, getActiveRound (mixed []) = Ok round ∧
                        Round.attempts round !! "b" = Some [None; None]).
  { eexists. split; [vm_compute; reflexivity|run]. }
  destruct Hr as (round & Hr & Hm). exists round. split; [exact Hr|].
  assert (Hp : getActivePlayer (mixed []) = Ok bob) by run.
  destruct (C6_simulate_fills_all_then_endRound (dice 10) (mixed []) round bob
              [None; None] Hr Hp eq_refl Hm)
    as (makes' & written & -> & _ & _ & _ & _ & _ & _ & Hred & _).
  exact Hred.
Defined.

Lemma C7_witness :
  getActivePlayer (mixed []) = Ok bob ∧
  gameReducer (dice 10) (mixed []) make = Ok (mixed []) ∧
  gameReducer (dice 10) (mixed []) miss = Ok (mixed []).
Proof.
  assert (Hp : getActivePlayer (mixed []) = Ok bob) by run.
  split; [exact Hp|].
  exact (proj1 (C7_ineligible_action_is_noop (dice 10) (mixed []) bob Hp) eq_refl).
Defined.

Lemma C8_witness :
  Game.winner (duel 1 [make; miss]) = Some ann ∧
  gameReducer (dice 10) (duel 1 [make; miss]) simulate = Ok (duel 1 [make; miss]).
Proof.
  split; [run|].
  assert (Hst : started (duel 1 [make; miss])).
  { apply (started_duel 1 [make; miss]); [repeat constructor|run]. }
  assert (Hw : Game.winner (duel 1 [make; miss]) ≠ None) by (vm_compute; discriminate).
  destruct (C8_won_match_is_frozen (dice 10) (duel 1 [make; miss]) simulate
              Hst Hw I) as (player & _ & Hred).
  rewrite andb_false_r in Hred. exact Hred.
Defined.

(** C8 as stated fails: once Ann has won the best-of-one duel, the active
    player is Cid, who is controlled and has no pending slot, and a further
    [make] throws instead of returning the state. *)
Lemma C8_counterexample :
  started (duel 1 [make; miss]) ∧
  Game.winner (duel 1 [make; miss]) = Some ann ∧
  gameReducer (dice 10) (duel 1 [make; miss]) make = Throw NoMoreMakes.
Proof.
  split; [|split; run].
  apply (started_duel 1 [make; miss]); [repeat constructor|run].
Qed.


Lemma C10_witness :
  Game.rounds (GAME "game") = [] ∧
  gameReducer (dice 10) (GAME "game") make = Throw (RoundNotFound 0) ∧
  gameReducer (dice 10) (GAME "game") miss = Throw (RoundNotFound 0) ∧
  gameReducer (dice 10) (GAME "game") simulate = Throw (RoundNotFound 0).
Proof.
  split; [reflexivity|].
  split; [|split].
  - exact (C10_play_before_start_throws (dice 10) (GAME "game") make eq_refl I).
  - exact (C10_play_before_start_throws (dice 10) (GAME "game") miss eq_refl I).
  - exact (C10_play_before_start_throws (dice 10) (GAME "game") simulate eq_refl I).
Defined.

(** ** Outside the hypotheses *)

(** C3 at the failing inputs.  In the best-of-one match [decider id], for
    [id] the empty string and for [id] the name ["toString"], Cid's miss
    decides the first round for the player of id [id], whose wins then
    number ceil(1 / 2) = 1; the reducer returns a state in which
    [game.winner] is null and a second round has been appended.  The empty
    string is falsy in [if (round.winner)], and ["toString" in
    winsByPlayer] is true of the empty object, so that the tally of that
    id is [NaN]. *)
Theorem C3_uncounted_winner_plays_on :
  Forall (λ id,
    started (decider id) ∧
    gameReducer (dice 10)
      (the (dispatch (dice 10) (GAME "game")
              [start [Player.mk id "Zoe" 50 true; cid] 1 1; make]))
      miss
    = Ok (decider id) ∧
    (∃ decided, Game.rounds (decider id) !! 0 = Some decided ∧
                Round.winner decided = Some id) ∧
    wins id (Game.rounds (decider id)) = winsToFinish (decider id) ∧
    Game.winner (decider id) = None ∧
    length (Game.rounds (decider id)) = 2)
    [""; "toString"].
Proof.
  repeat constructor; try run.
  - apply (started_dispatch (dice 10) "game" [Player.mk "" "Zoe" 50 true; cid] 1 1
             [make; miss]); [repeat constructor|run].
  - eexists. split; run.
  - apply (started_dispatch (dice 10) "game"
             [Player.mk "toString" "Zoe" 50 true; cid] 1 1 [make; miss]);
      [repeat constructor|run].
  - eexists. split; run.
Qed.


(** [start] dispatched on a started match replaces the roster and appends
    a round for the new roster: the rounds already played keep the
    sequences of the former players only. *)
Example second_start_appends_round :
  ∃ game' first second,
    gameReducer (dice 10) (duel 3 []) (start [bob] 1 3) = Ok game' ∧
    Game.players game' = [bob] ∧
    Game.rounds game' = [first; second] ∧
    Round.attempts first !! "b" = None ∧
    Round.attempts second !! "b" = Some [None] ∧
    Game.activeRound game' = 1.
Proof.
  eexists _, _, _. split; [vm_compute; reflexivity|]. repeat split.
Qed.

(** * Further properties of the code *)

(** ** The explicit results of a playing action *)

Lemma keeps_refl makes : keeps makes makes.
Proof. by intros i b. Qed.

Lemma keeps_trans a b c : keeps a b → keeps b c → keeps a c.
Proof. intros Hab Hbc i o Hi. by apply Hbc, Hab. Qed.

Lemma keeps_fill makes k b :
  findIndexNull makes = Some k → keeps makes (<[k := Some b]> makes).
Proof.
  intros [Hk _]%findIndexNull_Some i o Hi.
  destruct (decide (i = k)) as [->|Hne]; [congruence|].
  by rewrite list_lookup_insert_ne.
Qed.

Lemma keeps_simulate r p k makes : keeps makes (simulateLoop r p k makes).
Proof. intros i o. apply simulateLoop_keeps. Qed.

Lemma keeps_overtime makes : keeps makes (makes ++ [None]).
Proof.
  intros i o Hi. rewrite lookup_app_l; [done|]. by eapply lookup_lt_Some.
Qed.

Lemma play_explicit e game action game' init round :
  Inv game → Game.winner game = None → lastRound game init round →
  isPlay action → gameReducer e game action = Ok game' →
  played e game init round game'.
Proof.
  intros HI Hw Hl Hplay Hred.
  destruct (Inv_open _ _ _ HI Hw Hl) as (Hnone & Hwf & _ & Hfirst).
  pose proof (lastRound_active _ _ _ Hl) as Hr.
  apply gameReducer_play in Hred as (round' & player & Hr' & Hp & Hcases); [|done].
  assert (round' = round) as -> by congruence.
  destruct Hcases as [->|(makes & makes' & Hm & Hlen & Hcases)]; [by left|].
  right. exists player, makes, makes'.
  split; [done|]. split; [done|]. split; [done|]. split.
  { destruct Hcases as [(_ & Heq & _)|(k & _ & Hk & Heq & _)]; rewrite Heq.
    - apply keeps_simulate.
    - by apply keeps_fill. }
  cbv zeta.
  set (written := Round.set_attempts
                    (<[Player.id player := makes']> (Round.attempts round)) round).
  pose proof (setMakes_lastRound _ _ _ (Player.id player) makes' Hl) as Hl1.
  fold written in Hl1.
  assert (Hnow : setMakes (Player.id player) makes' game
                 = Game.set_rounds (init ++ [written]) game)
    by (by apply setMakes_last).
  assert (HI1 : Inv (setMakes (Player.id player) makes' game)).
  { eapply Inv_setMakes; eauto.
    destruct Hcases as [(_ & Heq & _)|(k & _ & Hk & Heq & _)]; rewrite Heq.
    - apply nullSuffix_filled, simulateLoop_filled.
    - apply nullSuffix_fill; [|done]. by eapply wf_suffix. }
  assert (Hw1 : Game.winner (setMakes (Player.id player) makes' game) = None)
    by exact Hw.
  destruct (Inv_open _ _ _ HI1 Hw1 Hl1) as (_ & Hwf1 & _ & Hfirst1).
  assert (Hend : endRound e (setMakes (Player.id player) makes' game) = Ok game' ∨
                 game' = setMakes (Player.id player) makes' game).
  { destruct Hcases as [(_ & _ & Hred)|(k & _ & _ & _ & Hred)]; [by left|].
    destruct (decide (S k = length makes)); [by left|by right]. }
  destruct Hend as [Hend| ->]; [|left; exact Hnow].
  destruct (decide (1 < length (winnersOf (Round.attempts written)))) as [Htie|Htie].
  { rewrite (endRound_tie e _ init _ Hl1 Htie) in Hend. injection Hend as <-.
    right. left. by split. }
  destruct (winnersOf (Round.attempts written)) as [|w [|]] eqn:Ews.
  - rewrite (endRound_undecided e _ init _ Hl1 Ews) in Hend.
    injection Hend as <-.
    destruct (hasAttemptsLeft written) eqn:Hleft.
    + right. right. left. by split.
    + left. exact Hnow.
  - destruct (decide (counted w ∧ S (wins w init) = winsToFinish game))
      as [[Hne Hwins]|Hnot].
    + destruct (endRound_won e _ init _ w Hl1 Hwf1 Hfirst1 Ews Hne Hwins)
        as (winner & Hfind & Heq).
      rewrite Heq in Hend. injection Hend as <-.
      right. right. right. left. by exists w, winner.
    + assert (Hor : ¬ counted w ∨ S (wins w init) ≠ winsToFinish game).
      { destruct (decide (counted w)); [right|by left].
        intros Hwins. by apply Hnot. }
      rewrite (endRound_next e _ init _ w Hl1 Hfirst1 Ews Hor) in Hend.
      injection Hend as <-. right. right. right. right. by exists w.
  - simpl in Htie. lia.
Qed.

(** ** The shape of started games *)

Lemma lookup_snoc_inv {A} (l : list A) (x y : A) i :
  (l ++ [x]) !! i = Some y →
  (i < length l ∧ l !! i = Some y) ∨ (i = length l ∧ y = x).
Proof.
  intros Hi. destruct (decide (i < length l)) as [Hlt|Hge].
  - left. by rewrite lookup_app_l in Hi.
  - right. rewrite lookup_app_r in Hi by lia.
    destruct (i - length l) as [|n] eqn:E; simpl in Hi; [|done].
    split; [lia|congruence].
Qed.

Lemma roundShape_update players attempts i round round' :
  roundShape players attempts i round →
  Round.order round' = Round.order round →
  Round.name round' = Round.name round →
  (players ≠ [] → Round.activePlayer round' < length (Round.order round')) →
  (∀ id makes, Round.attempts round' !! id = Some makes → attempts ≤ length makes) →
  (∀ w, Round.winner round' = Some w → winnersOf (Round.attempts round') = [w]) →
  roundShape players attempts i round'.
Proof.
  intros [Ho Hn Ht Hl Hw] Ho' Hn' Ht' Hl' Hw'. split; try done.
  - by rewrite Ho'.
  - by rewrite Hn'.
Qed.

Lemma roundShape_order_length players attempts i round :
  roundShape players attempts i round →
  length (Round.order round) = length players.
Proof.
  intros [Ho _ _ _ _]. rewrite Ho.
  destruct (Nat.even i); by rewrite ?length_reverse, length_fmap.
Qed.

Lemma roundShape_fresh e game i :
  length (Game.rounds game) = i →
  (match last (Game.rounds game) with
   | Some previous =>
       roundShape (Game.players game) (Game.attempts game) (i - 1) previous ∧ 0 < i
   | None => i = 0
   end) →
  roundShape (Game.players game) (Game.attempts game) i (newRound e game).
Proof.
  intros Hlen Hlast. split; simpl.
  - destruct (last (Game.rounds game)) as [previous|].
    + destruct Hlast as [[Ho _ _ _ _] Hpos]. rewrite Ho.
      destruct i as [|i]; [lia|]. rewrite Nat.even_succ, <- Nat.negb_even.
      replace (S i - 1) with i by lia.
      destruct (Nat.even i); simpl; by rewrite ?reverse_involutive.
    + by rewrite Hlast.
  - by rewrite Hlen.
  - intros Hne.
    assert (0 < length (Game.players game)) by (destruct (Game.players game); [done|simpl; lia]).
    destruct (last (Game.rounds game)) as [previous|].
    + destruct Hlast as [Hprev _].
      rewrite length_reverse, (roundShape_order_length _ _ _ _ Hprev). done.
    + by rewrite length_fmap.
  - intros id makes. rewrite freshAttempts_lookup. case_decide; [|done].
    intros [= <-]. by rewrite length_replicate.
  - done.
Qed.

Lemma Shape_start e gid players attempts bestOf game :
  gameReducer e (GAME gid) (start players attempts bestOf) = Ok game → Shape game.
Proof.
  intros Heq. unfold gameReducer in Heq. injection Heq as <-. split; simpl.
  - intros [|i] round; simpl; [|done]. intros [= <-].
    by apply (roundShape_fresh e (Game.mk gid players [] None bestOf attempts 0) 0).
  - intros i round _ Hlt. destruct i; simpl in Hlt; lia.
  - done.
Qed.

Lemma Shape_last game game' init round round' :
  Shape game → lastRound game init round →
  Game.players game' = Game.players game →
  Game.attempts game' = Game.attempts game →
  Game.bestOf game' = Game.bestOf game →
  Game.rounds game' = init ++ [round'] →
  Game.activeRound game' = length init →
  roundShape (Game.players game) (Game.attempts game) (length init) round' →
  (∀ player, Game.winner game' = Some player →
     ∃ w, Round.winner round' = Some w ∧ counted w ∧
          findPlayer (Game.players game) w = Some player ∧
          S (wins w init) = winsToFinish game ∧
          firstToFinish (winsToFinish game) (Round.winner <$> init) ∅ = None) →
  Shape game'.
Proof.
  intros [Hrounds Hdec _] [Hrs _] Hps Hn Hb Hrs' Har Hlast Hwin.
  assert (HW : winsToFinish game' = winsToFinish game)
    by (unfold winsToFinish; by rewrite Hb).
  split; rewrite ?Hps, ?Hn, ?HW, ?Hrs'.
  - intros i r [[Hlt Hi]|[-> ->]]%lookup_snoc_inv; [|done].
    apply Hrounds. rewrite Hrs. by rewrite lookup_app_l.
  - intros i r [[Hlt Hi]|[-> ->]]%lookup_snoc_inv.
    + intros _. apply (Hdec i); rewrite Hrs.
      * by rewrite lookup_app_l.
      * rewrite length_app. simpl. lia.
    + rewrite length_app. simpl. lia.
  - intros player Hp. destruct (Hwin player Hp) as (w & ?).
    exists init, round', w. split; [by split|done].
Qed.

Lemma Shape_next game game' init round round' next :
  Shape game → lastRound game init round →
  Game.players game' = Game.players game →
  Game.attempts game' = Game.attempts game →
  Game.rounds game' = init ++ [round'; next] →
  roundShape (Game.players game) (Game.attempts game) (length init) round' →
  roundShape (Game.players game) (Game.attempts game) (S (length init)) next →
  is_Some (Round.winner round') →
  Game.winner game' = None →
  Shape game'.
Proof.
  intros [Hrounds Hdec _] [Hrs _] Hps Hn Hrs' Hlast Hnext Hsome Hwin.
  assert (Hsplit : init ++ [round'; next] = (init ++ [round']) ++ [next])
    by (by rewrite <- app_assoc).
  split; rewrite ?Hps, ?Hn, ?Hrs', ?Hsplit.
  - intros i r [[Hlt Hi]|[-> ->]]%lookup_snoc_inv.
    + apply lookup_snoc_inv in Hi as [[Hlt' Hi]|[-> ->]]; [|done].
      apply Hrounds. rewrite Hrs. by rewrite lookup_app_l.
    + by rewrite length_app, Nat.add_1_r.
  - intros i r [[Hlt Hi]|[-> ->]]%lookup_snoc_inv.
    + intros _. apply lookup_snoc_inv in Hi as [[Hlt' Hi]|[-> ->]]; [|done].
      apply (Hdec i); rewrite Hrs.
      * by rewrite lookup_app_l.
      * rewrite length_app. simpl. lia.
    + rewrite !length_app. simpl. lia.
  - intros player Hp. congruence.
Qed.

Lemma Shape_play e game action game' :
  Inv game → Shape game → isPlay action →
  gameReducer e game action = Ok game' → Shape game'.
Proof.
  intros HI HS Hplay Hred.
  destruct (Game.winner game) as [p|] eqn:Hw.
  { erewrite (terminal_play _ _ _ game'); eauto. by rewrite Hw. }
  destruct (lastRound_exists _ (inv_active _ HI)) as (init & round & Hl).
  destruct (Inv_open _ _ _ HI Hw Hl) as (Hnone & Hwf & _ & Hfirst).
  pose proof Hl as [Hrs Hidx].
  assert (Hround : roundShape (Game.players game) (Game.attempts game)
                     (length init) round).
  { apply (shape_rounds _ HS). rewrite Hrs. by apply list_lookup_middle. }
  destruct (play_explicit _ _ _ _ _ _ HI Hw Hl Hplay Hred)
    as [->|(player & makes & makes' & Hp & Hm & Hlen & Hkeep & Hcases)]; [done|].
  cbv zeta in Hcases.
  set (written := Round.set_attempts
                    (<[Player.id player := makes']> (Round.attempts round)) round)
    in Hcases.
  assert (Hne : Game.players game ≠ []).
  { apply getActivePlayer_roster in Hp. intros E. rewrite E in Hp.
    by apply elem_of_nil in Hp. }
  assert (Hwritten : roundShape (Game.players game) (Game.attempts game)
                       (length init) written).
  { apply (roundShape_update _ _ _ round); try done.
    - intros _. by apply (shape_turn _ _ _ _ Hround).
    - intros id sequence. simpl. rewrite lookup_insert.
      destruct (decide (Player.id player = id)).
      + intros [= Heq]. rewrite <- Heq, Hlen.
        by eapply (shape_long _ _ _ _ Hround).
      + apply (shape_long _ _ _ _ Hround).
    - simpl. intros w. by rewrite Hnone. }
  destruct Hcases as [->|[[Htie ->]|[(Hws & Hleft & ->)|[Hwon|Hnext]]]].
  - eapply (Shape_last game); eauto. simpl. by rewrite Hw.
  - eapply (Shape_last game); eauto; [|simpl; by rewrite Hw].
    apply (roundShape_update _ _ _ written); try done.
    + intros _. by apply (shape_turn _ _ _ _ Hwritten).
    + intros id sequence. simpl. rewrite lookup_fmap.
      destruct (<[Player.id player:=makes']> (Round.attempts round) !! id)
        as [s|] eqn:E; [|done].
      simpl. intros [= <-]. rewrite length_app.
      pose proof (shape_long _ _ _ _ Hwritten id s E). lia.
    + simpl. intros w. by rewrite Hnone.
  - eapply (Shape_last game); eauto; [|simpl; by rewrite Hw].
    apply (roundShape_update _ _ _ written); try done.
    + intros _. simpl. apply Nat.mod_upper_bound.
      rewrite (roundShape_order_length _ _ _ _ Hround).
      by destruct (Game.players game).
    + apply (shape_long _ _ _ _ Hwritten).
    + simpl. intros w. by rewrite Hnone.
  - destruct Hwon as (w & winner & Hws & Hnew & Hwins & Hfind & ->).
    eapply (Shape_last game); eauto.
    + apply (roundShape_update _ _ _ written); try done.
      * intros _. by apply (shape_turn _ _ _ _ Hwritten).
      * apply (shape_long _ _ _ _ Hwritten).
      * simpl. by intros ? [= <-].
    + simpl. intros ? [= <-]. by exists w.
  - destruct Hnext as (w & Hws & Hor & ->).
    assert (Hdecided : roundShape (Game.players game) (Game.attempts game)
                         (length init) (Round.set_winner (Some w) written)).
    { apply (roundShape_update _ _ _ written); try done.
      * intros _. by apply (shape_turn _ _ _ _ Hwritten).
      * apply (shape_long _ _ _ _ Hwritten).
      * simpl. by intros ? [= <-]. }
    eapply (Shape_next game); eauto.
    + case_decide; [|done].
      apply (roundShape_update _ _ _ (Round.set_winner (Some w) written));
        try done.
      * intros _. simpl. rewrite (roundShape_order_length _ _ _ _ Hround).
        destruct (Game.players game); [done|simpl; lia].
      * apply (shape_long _ _ _ _ Hdecided).
      * apply (shape_leader _ _ _ _ Hdecided).
    + apply (roundShape_fresh e
               (Game.set_rounds (init ++ [Round.set_winner (Some w) written]) game)).
      * simpl. by rewrite length_app, Nat.add_1_r.
      * simpl. rewrite last_snoc. split; [|lia].
        by rewrite Nat.sub_0_r.
    + case_decide; by eexists.
Qed.

Theorem started_Shape game : started game → Shape game.
Proof.
  induction 1 as [e gid players attempts bestOf game Hstart
                 |e game action game' Hst IH Hplay Hred].
  - by eapply Shape_start.
  - eapply Shape_play; eauto. by apply started_Inv.
Qed.

(** ** A playing action on any state *)

Lemma alter_insert {A} (f : A → A) (l : list A) i x :
  l !! i = Some x → alter f i l = <[i := f x]> l.
Proof.
  revert i. induction l as [|y l IH]; intros [|i] Hi; simpl in *; try done.
  - by injection Hi as ->.
  - f_equal. by apply IH.
Qed.

Lemma getActiveRound_lookup game round :
  getActiveRound game = Ok round ↔
  Game.rounds game !! Game.activeRound game = Some round.
Proof.
  unfold getActiveRound.
  destruct (Game.rounds game !! Game.activeRound game); simpl; split;
    intros; try done; congruence.
Qed.

Lemma extends_refl round : extends round round.
Proof.
  repeat split. intros id makes Hm. exists makes.
  split; [done|]. split; [apply keeps_refl|done].
Qed.

Lemma extends_trans a b c : extends a b → extends b c → extends a c.
Proof.
  intros (Hi & Hn & Ho & Hd & Hs) (Hi' & Hn' & Ho' & Hd' & Hs').
  split; [congruence|]. split; [congruence|]. split; [congruence|].
  split; [congruence|]. intros id makes Hm.
  destruct (Hs _ _ Hm) as (m1 & Hm1 & Hk1 & Hl1).
  destruct (Hs' _ _ Hm1) as (m2 & Hm2 & Hk2 & Hl2).
  exists m2. split; [done|]. split; [by eapply keeps_trans|lia].
Qed.

Lemma extends_same round round' :
  Round.id round' = Round.id round → Round.name round' = Round.name round →
  Round.order round' = Round.order round →
  Round.attempts round' = Round.attempts round →
  extends round round'.
Proof.
  intros Hi Hn Ho Ha. split; [done|]. split; [done|]. split; [done|].
  rewrite Ha. split; [done|]. intros id makes Hm. exists makes.
  split; [done|]. split; [apply keeps_refl|done].
Qed.

Lemma extends_overtime round :
  extends round
    (Round.set_attempts ((λ makes, makes ++ [None]) <$> Round.attempts round) round).
Proof.
  split; [done|]. split; [done|]. split; [done|]. simpl.
  split; [by rewrite dom_fmap_L|]. intros id makes Hm.
  exists (makes ++ [None]). rewrite lookup_fmap, Hm. split; [done|].
  split; [apply keeps_overtime|]. rewrite length_app. lia.
Qed.

Lemma extends_write round id makes makes' :
  Round.attempts round !! id = Some makes →
  keeps makes makes' → length makes' = length makes →
  extends round
    (Round.set_attempts (<[id := makes']> (Round.attempts round)) round).
Proof.
  intros Hm Hk Hl. split; [done|]. split; [done|]. split; [done|]. simpl.
  split.
  - rewrite dom_insert_L.
    assert (id ∈ dom (Round.attempts round)) by (apply elem_of_dom; eauto).
    set_solver.
  - intros id' sequence Hs. rewrite lookup_insert.
    destruct (decide (id = id')) as [->|Hne].
    + assert (sequence = makes) as -> by congruence.
      exists makes'. split; [done|]. split; [done|lia].
    + exists sequence. split; [done|]. split; [apply keeps_refl|done].
Qed.

(** The tail of [endRound] touches the turn of the round at [idx] and
    [activeRound] only. *)
Lemma advance_general round idx game current :
  Game.rounds game !! idx = Some current →
  ∃ turn,
    Game.rounds (advance round idx game)
    = <[idx := Round.set_activePlayer turn current]> (Game.rounds game) ∧
    Game.id (advance round idx game) = Game.id game ∧
    Game.players (advance round idx game) = Game.players game ∧
    Game.bestOf (advance round idx game) = Game.bestOf game ∧
    Game.attempts (advance round idx game) = Game.attempts game ∧
    Game.winner (advance round idx game) = Game.winner game.
Proof.
  intros Hlook. unfold advance.
  destruct (hasAttemptsLeft round); [|destruct (_ && _)]; simpl.
  - eexists. by rewrite (alter_insert _ _ _ _ Hlook).
  - eexists. by rewrite (alter_insert _ _ _ _ Hlook).
  - exists (Round.activePlayer current).
    rewrite list_insert_id; [done|]. rewrite Hlook. by destruct current.
Qed.

(** [endRound] keeps the roster and the configuration, appends at most one
    round, and changes no round but the active one, of which it keeps the
    id, the name, the order and the attempts, but for the overtime slot. *)
Lemma endRound_general e game game' round :
  getActiveRound game = Ok round → endRound e game = Ok game' →
  Game.id game' = Game.id game ∧
  Game.players game' = Game.players game ∧
  Game.bestOf game' = Game.bestOf game ∧
  Game.attempts game' = Game.attempts game ∧
  ∃ round' tail,
    Game.rounds game'
    = <[Game.activeRound game := round']> (Game.rounds game) ++ tail ∧
    length tail ≤ 1 ∧ extends round round'.
Proof.
  intros Hr. pose proof (proj1 (getActiveRound_lookup _ _) Hr) as Hlook.
  unfold endRound, checkWinners, overtime. rewrite Hr. simpl.
  set (winners := checkWinners_loop _ _ _).
  destruct (decide (1 < length winners)).
  { intros [= <-]. simpl. repeat (split; [done|]).
    eexists _, []. rewrite app_nil_r, (alter_insert _ _ _ _ Hlook).
    split; [done|]. split; [simpl; lia|]. apply extends_overtime. }
  destruct (decide (length winners = 1)).
  - unfold checkGameOver. rewrite checkGameOver_loop_spec.
    destruct (firstToFinish _ _ _) as [w|].
    + simpl. destruct (findPlayer (Game.players game) w); [|done].
      simpl. intros [= <-]. simpl. repeat (split; [done|]).
      eexists _, []. rewrite app_nil_r, (alter_insert _ _ _ _ Hlook).
      split; [done|]. split; [simpl; lia|]. by apply extends_same.
    + simpl. intros [= <-].
      set (game1 := createNextRound e
                      (updateRound (Game.activeRound game)
                         (Round.set_winner (winners !! 0)) game)).
      assert (Hlook1 : Game.rounds game1 !! Game.activeRound game
                       = Some (Round.set_winner (winners !! 0) round)).
      { simpl. rewrite lookup_app_l.
        - by rewrite list_lookup_alter_eq, Hlook.
        - rewrite length_alter. by eapply lookup_lt_Some. }
      destruct (advance_general round (Game.activeRound game) game1 _ Hlook1)
        as (turn & -> & -> & -> & -> & -> & _).
      simpl. repeat (split; [done|]).
      eexists _, [_]. split; [|split; [simpl; lia|]].
      * rewrite (alter_insert _ _ _ _ Hlook).
        rewrite insert_app_l
          by (rewrite length_insert; by eapply lookup_lt_Some).
        by rewrite list_insert_insert_eq.
      * by apply extends_same.
  - intros [= <-].
    destruct (advance_general round (Game.activeRound game) game _ Hlook)
      as (turn & -> & -> & -> & -> & -> & _).
    repeat (split; [done|]).
    eexists _, []. rewrite app_nil_r. split; [done|].
    split; [simpl; lia|]. by apply extends_same.
Qed.

Lemma gameReducer_general e game action game' :
  isPlay action → gameReducer e game action = Ok game' →
  Game.id game' = Game.id game ∧
  Game.players game' = Game.players game ∧
  Game.bestOf game' = Game.bestOf game ∧
  Game.attempts game' = Game.attempts game ∧
  ∃ round round' tail,
    getActiveRound game = Ok round ∧
    Game.rounds game'
    = <[Game.activeRound game := round']> (Game.rounds game) ++ tail ∧
    length tail ≤ 1 ∧ extends round round'.
Proof.
  intros Hplay Hred.
  apply gameReducer_play in Hred as (round & player & Hr & Hp & Hcases); [|done].
  pose proof (proj1 (getActiveRound_lookup _ _) Hr) as Hlook.
  assert (Hnoop : ∃ round' tail,
    Game.rounds game = <[Game.activeRound game := round']> (Game.rounds game) ++ tail ∧
    length tail ≤ 1 ∧ extends round round').
  { exists round, []. rewrite app_nil_r, list_insert_id by done.
    split; [done|]. split; [simpl; lia|apply extends_refl]. }
  destruct Hcases as [->|(makes & makes' & Hm & Hlen & Hcases)].
  { repeat (split; [done|]). destruct Hnoop as (r' & tail & ?). by exists round, r', tail. }
  assert (Hkeep : keeps makes makes').
  { destruct Hcases as [(_ & -> & _)|(k & _ & Hk & -> & _)].
    - apply keeps_simulate.
    - by apply keeps_fill. }
  set (written := Round.set_attempts
                    (<[Player.id player := makes']> (Round.attempts round)) round).
  assert (Hext : extends round written) by (by apply (extends_write _ _ makes)).
  assert (Hr1 : getActiveRound (setMakes (Player.id player) makes' game) = Ok written)
    by (by apply getActiveRound_setMakes).
  assert (Hrs1 : Game.rounds (setMakes (Player.id player) makes' game)
                 = <[Game.activeRound game := written]> (Game.rounds game)).
  { simpl. by rewrite (alter_insert _ _ _ _ Hlook). }
  assert (Hwritten : ∃ round' tail,
    Game.rounds (setMakes (Player.id player) makes' game)
    = <[Game.activeRound game := round']> (Game.rounds game) ++ tail ∧
    length tail ≤ 1 ∧ extends round round').
  { exists written, []. rewrite app_nil_r. split; [done|]. split; [simpl; lia|done]. }
  assert (Hend : ∀ state,
    endRound e (setMakes (Player.id player) makes' game) = Ok state →
    Game.id state = Game.id game ∧ Game.players state = Game.players game ∧
    Game.bestOf state = Game.bestOf game ∧ Game.attempts state = Game.attempts game ∧
    ∃ round0 round' tail, getActiveRound game = Ok round0 ∧
      Game.rounds state = <[Game.activeRound game := round']> (Game.rounds game) ++ tail ∧
      length tail ≤ 1 ∧ extends round0 round').
  { intros state Hstate.
    destruct (endRound_general e _ _ _ Hr1 Hstate)
      as (Hid & Hps & Hb & Hn & r' & tail & Hrs & Htail & Hext').
    repeat (split; [done|]). exists round, r', tail. split; [done|].
    split; [|split; [done|by eapply extends_trans]].
    rewrite Hrs, Hrs1. simpl. by rewrite list_insert_insert_eq. }
  destruct Hcases as [(_ & _ & Hred)|(k & _ & _ & _ & Hred)]; [by apply Hend|].
  destruct (decide (S k = length makes)); [by apply Hend|]. subst game'.
  repeat (split; [done|]). destruct Hwritten as (r' & tail & ?).
  by exists round, r', tail.
Qed.

(** ** checkWinners, hasAttemptsLeft and overtime *)

Lemma checkWinners_loop_nonempty entries max winner :
  (∀ playerId makes, (playerId, makes) ∈ entries → None ∉ makes) →
  winner ≠ [] ∨ (max = 0 ∧ entries ≠ []) →
  checkWinners_loop entries max winner ≠ [].
Proof.
  revert max winner.
  induction entries as [|[p a] rest IH]; intros max winner Hc Hor; simpl.
  - destruct Hor as [?|[_ ?]]; done.
  - rewrite countMakes_total by (eapply Hc; left). simpl.
    assert (Hrest : ∀ playerId makes, (playerId, makes) ∈ rest → None ∉ makes)
      by (intros ?? ?; eapply Hc; by right).
    repeat case_decide; apply IH; try done.
    + left. by destruct winner.
    + by left.
    + left. destruct Hor as [?|[-> _]]; [done|lia].
Qed.

Lemma checkWinners_winnersOf game round :
  getActiveRound game = Ok round →
  checkWinners game = Ok (winnersOf (Round.attempts round)).
Proof. intros Hr. unfold checkWinners. by rewrite Hr. Qed.

(** X1. [checkWinners] returns the empty list exactly when some attempt of
    the active round is pending or the round has no sequence at all. *)
Theorem X1_checkWinners_empty game round :
  getActiveRound game = Ok round →
  checkWinners game = Ok [] ↔
  hasAttemptsLeft round = true ∨ Round.attempts round = ∅.
Proof.
  intros Hr. rewrite (checkWinners_winnersOf _ _ Hr). split.
  - intros [= Hws].
    destruct (hasAttemptsLeft round) eqn:Hleft; [by left|right].
    apply hasAttemptsLeft_complete in Hleft.
    destruct (decide (Round.attempts round = ∅)) as [|Hne]; [done|].
    exfalso. revert Hws. apply checkWinners_loop_nonempty.
    + intros p m ?%elem_of_map_to_list. eauto.
    + right. split; [done|]. intros E. by apply map_to_list_empty_iff in E.
  - intros [Hleft| ->].
    + destruct (complete_dec (Round.attempts round)) as [Hc|Hn].
      * apply hasAttemptsLeft_complete in Hc. congruence.
      * apply not_complete in Hn as (k & m & Hk & Hin).
        by rewrite (winnersOf_pending _ _ _ Hk Hin).
    + unfold winnersOf. by rewrite map_to_list_empty.
Qed.

Lemma X1_witness :
  getActiveRound (duel 3 []) = Ok (duelRound [None] [None] 0 None) ∧
  checkWinners (duel 3 []) = Ok [].
Proof.
  assert (Hr : getActiveRound (duel 3 [])
               = Ok (duelRound [None] [None] 0 None)) by run.
  split; [exact Hr|].
  apply (proj2 (X1_checkWinners_empty (duel 3 []) _ Hr)). left. run.
Defined.

(** X2. When no attempt of the active round is pending, [checkWinners]
    returns, each once, exactly the ids whose total makes is the greatest
    of the round, whatever the order in which the sequences are
    enumerated. *)
Theorem X2_checkWinners_leaders game round :
  getActiveRound game = Ok round → complete (Round.attempts round) →
  ∃ winners,
    checkWinners game = Ok winners ∧ NoDup winners ∧
    ∀ id, id ∈ winners ↔ leads (Round.attempts round) id.
Proof.
  intros Hr Hc. exists (winnersOf (Round.attempts round)).
  split; [by apply checkWinners_winnersOf|].
  split; [apply winnersOf_NoDup|]. intros id. by apply winnersOf_elem.
Qed.

Lemma X2_witness :
  ∃ winners,
    checkWinners (setMakes "c" [Some true] (duel 3 [make])) = Ok winners ∧
    NoDup winners ∧ "a" ∈ winners ∧ "c" ∈ winners.
Proof.
  assert (Hr : getActiveRound (setMakes "c" [Some true] (duel 3 [make]))
               = Ok (duelRound [Some true] [Some true] 1 None)) by run.
  assert (Hc : complete (Round.attempts
                 (duelRound [Some true] [Some true] 1 None))).
  { apply winnersOf_complete. vm_compute. discriminate. }
  destruct (X2_checkWinners_leaders _ _ Hr Hc) as (winners & Hws & Hnd & Hin).
  exists winners. split; [exact Hws|]. split; [exact Hnd|].
  split; apply Hin, winnersOf_elem; try exact Hc; vm_compute.
  - right; left.
  - left.
Defined.

Lemma total_app a b : total (a ++ b) = total a + total b.
Proof. unfold total. by rewrite filter_app, length_app. Qed.

(** X3. On a game with an active round, [overtime] does not throw: every
    sequence of the round gets one pending slot at its end, the players of
    the round and their totals are as before, and, when the round has a
    sequence, the round has attempts left again and [checkWinners] returns
    the empty list. *)
Theorem X3_overtime_reopens_round game round :
  getActiveRound game = Ok round →
  ∃ game' round',
    overtime game = Ok game' ∧ getActiveRound game' = Ok round' ∧
    dom (Round.attempts round') =@{gset string} dom (Round.attempts round) ∧
    (∀ id makes, Round.attempts round !! id = Some makes →
       Round.attempts round' !! id = Some (makes ++ [None]) ∧
       total (makes ++ [None]) = total makes) ∧
    (Round.attempts round ≠ ∅ →
       hasAttemptsLeft round' = true ∧ checkWinners game' = Ok []).
Proof.
  intros Hr. unfold overtime. rewrite Hr. simpl.
  eexists _, _. split; [done|].
  split; [by apply getActiveRound_updateRound|]. simpl.
  split; [by rewrite dom_fmap_L|]. split.
  - intros id makes Hm. rewrite lookup_fmap, Hm. split; [done|].
    rewrite total_app. unfold total at 2. simpl. lia.
  - intros Hne. apply map_choose in Hne as (id & makes & Hm).
    assert (Hm' : ((λ makes, makes ++ [None]) <$> Round.attempts round) !! id
                  = Some (makes ++ [None])) by (by rewrite lookup_fmap, Hm).
    assert (Hin : None ∈ makes ++ [@None bool]).
    { apply elem_of_app. right. by left. }
    split.
    + by eapply hasAttemptsLeft_pending.
    + erewrite checkWinners_winnersOf
        by (by apply getActiveRound_updateRound).
      simpl. by rewrite (winnersOf_pending _ _ _ Hm' Hin).
Qed.

Lemma X3_witness :
  ∃ game' round',
    overtime (setMakes "c" [Some true] (duel 3 [make])) = Ok game' ∧
    getActiveRound game' = Ok round' ∧
    Round.attempts round' !! "a" = Some [Some true; None] ∧
    checkWinners game' = Ok [].
Proof.
  assert (Hr : getActiveRound (setMakes "c" [Some true] (duel 3 [make]))
               = Ok (duelRound [Some true] [Some true] 1 None)) by run.
  destruct (X3_overtime_reopens_round _ _ Hr)
    as (game' & round' & Hot & Hr' & _ & Hslots & Hopen).
  exists game', round'. split; [exact Hot|]. split; [exact Hr'|].
  split.
  - apply (Hslots "a" [Some true]). run.
  - apply Hopen. vm_compute. discriminate.
Defined.

(** ** randomMake and the loop of simulate *)

(** X4. The draws being between 0 and 100 as [Math.round(Math.random() *
    100)] gives them, the loop of [simulate] turns every pending slot into
    a make when the percentage is at least 100 and into a miss when the
    percentage is negative. *)
Theorem X4_simulate_certain_outcomes random percentage k makes i :
  (∀ n, (0 ≤ random n ≤ 100)%Z) →
  makes !! i = Some None →
  ((100 ≤ percentage)%Z →
     simulateLoop random percentage k makes !! i = Some (Some true)) ∧
  ((percentage < 0)%Z →
     simulateLoop random percentage k makes !! i = Some (Some false)).
Proof.
  intros Hdraw. revert k i.
  induction makes as [|[b|] makes IH]; intros k [|i] Hi; simpl in *; try done.
  - by apply IH.
  - unfold randomMake. specialize (Hdraw k). split; intros Hp.
    + by rewrite bool_decide_eq_true_2 by lia.
    + by rewrite bool_decide_eq_false_2 by lia.
  - by apply IH.
Qed.

Lemma X4_witness :
  simulateLoop (λ _, 100%Z) 100 0 [Some false; None; None] !! 2 = Some (Some true) ∧
  simulateLoop (λ _, 0%Z) (-1) 0 [Some false; None; None] !! 2 = Some (Some false).
Proof.
  split.
  - apply (X4_simulate_certain_outcomes (λ _, 100%Z) 100 0
             [Some false; None; None] 2); [intros; lia|reflexivity|lia].
  - apply (X4_simulate_certain_outcomes (λ _, 0%Z) (-1) 0
             [Some false; None; None] 2); [intros; lia|reflexivity|lia].
Defined.

Lemma pending_cons make makes :
  pending (make :: makes) = (if decide (make = None) then 1 else 0) + pending makes.
Proof.
  unfold pending. case_decide.
  - by rewrite filter_cons_True.
  - by rewrite filter_cons_False.
Qed.

(** X5. The loop of [simulate] gives every pending slot a draw of its own,
    in the order of the slots: the slot at index [i] holds the outcome of
    the draw whose number is the number of pending slots before [i]. *)
Theorem X5_simulate_one_draw_per_slot random percentage k makes i :
  makes !! i = Some None →
  simulateLoop random percentage k makes !! i
  = Some (Some (randomMake (random (k + pending (take i makes))) percentage)).
Proof.
  revert k i.
  induction makes as [|[b|] makes IH]; intros k [|i] Hi; simpl in *; try done.
  - rewrite pending_cons, decide_False by done. by apply IH.
  - unfold pending. simpl. by rewrite Nat.add_0_r.
  - rewrite pending_cons, decide_True by done.
    rewrite (IH (S k) i Hi). do 4 f_equal. lia.
Qed.

Lemma X5_witness :
  simulateLoop (λ n, Z.of_nat n) 0 0 [None; Some false; None] !! 0
  = Some (Some true) ∧
  simulateLoop (λ n, Z.of_nat n) 0 0 [None; Some false; None] !! 2
  = Some (Some false).
Proof.
  split.
  - exact (X5_simulate_one_draw_per_slot (λ n, Z.of_nat n) 0 0
             [None; Some false; None] 0 eq_refl).
  - exact (X5_simulate_one_draw_per_slot (λ n, Z.of_nat n) 0 0
             [None; Some false; None] 2 eq_refl).
Defined.

(** ** start and createNextRound *)

Lemma gameReducer_no_player e game action round err :
  getActiveRound game = Ok round → getActivePlayer game = Throw err →
  isPlay action → gameReducer e game action = Throw err.
Proof.
  intros Hr Hp Hplay.
  destruct action; try done; unfold gameReducer; by rewrite Hr, Hp.
Qed.

Lemma head_reverse_last {A} (l : list A) : reverse l !! 0 = last l.
Proof.
  induction l as [|x l IH] using rev_ind; [done|].
  by rewrite reverse_snoc, last_snoc.
Qed.

(** X6. [start] dispatched on a game that has rounds takes the turn order
    of the new round from the last round, reversed, not from the new
    roster: when the player who comes first in that order is not in the new
    roster, every later [make], [miss] and [simulate] throws "Player 0 not
    found". *)
Theorem X6_second_start_keeps_previous_order
    e state players attempts bestOf previous state' e' action :
  last (Game.rounds state) = Some previous →
  (playerId ← last (Round.order previous); findPlayer players playerId) = None →
  gameReducer e state (start players attempts bestOf) = Ok state' →
  isPlay action →
  (∃ round', getActiveRound state' = Ok round' ∧
             Round.order round' = reverse (Round.order previous)) ∧
  gameReducer e' state' action = Throw (PlayerNotFound 0).
Proof.
  intros Hlast Hfind Hstart Hplay. unfold gameReducer in Hstart.
  injection Hstart as <-.
  set (next := newRound e
                 (Game.mk (Game.id state) players (Game.rounds state)
                    (Game.winner state) bestOf attempts (Game.activeRound state))).
  assert (Hr : getActiveRound
                 (createNextRound e
                    (Game.mk (Game.id state) players (Game.rounds state)
                       (Game.winner state) bestOf attempts (Game.activeRound state)))
               = Ok next).
  { unfold getActiveRound. simpl. by rewrite list_lookup_middle. }
  assert (Hord : Round.order next = reverse (Round.order previous)).
  { unfold next, newRound. simpl. by rewrite Hlast. }
  split; [by exists next|].
  eapply gameReducer_no_player; [exact Hr| |done].
  unfold getActivePlayer. rewrite Hr. simpl.
  rewrite Hlast, head_reverse_last.
  by destruct (last (Round.order previous)); simpl in *; rewrite ?Hfind.
Qed.

Lemma X6_witness :
  ∃ state',
    gameReducer (dice 10) (duel 3 []) (start [bob] 1 3) = Ok state' ∧
    gameReducer (dice 10) state' simulate = Throw (PlayerNotFound 0).
Proof.
  eexists. split; [reflexivity|].
  apply (X6_second_start_keeps_previous_order (dice 10) (duel 3 []) [bob] 1 3
           (duelRound [None] [None] 0 None) _ (dice 10) simulate);
    [run|run|reflexivity|exact I].
Defined.

(** X7. A match started with an empty roster stays as it is: every [make],
    [miss] and [simulate] throws "Player 0 not found". *)
Theorem X7_empty_roster_cannot_play e game action :
  started game → Game.players game = [] → isPlay action →
  gameReducer e game action = Throw (PlayerNotFound 0).
Proof.
  intros Hst. revert e action.
  induction Hst as [e0 gid players attempts bestOf game Hstart
                   |e0 game action0 game' Hst IH Hplay0 Hred];
    intros e action Hnil Hplay.
  - unfold gameReducer in Hstart. injection Hstart as <-. simpl in Hnil.
    subst players. eapply gameReducer_no_player; [| |done]; done.
  - destruct (gameReducer_general _ _ _ _ Hplay0 Hred) as (_ & Hps & _).
    rewrite Hps in Hnil. rewrite (IH e0 action0 Hnil Hplay0) in Hred. done.
Qed.

Lemma X7_witness :
  gameReducer (dice 10) (the (gameReducer (dice 10) (GAME "game") (start [] 5 3)))
    make = Throw (PlayerNotFound 0).
Proof.
  apply X7_empty_roster_cannot_play; [|reflexivity|exact I].
  by apply (started_start (dice 10) "game" [] 5 3).
Defined.




(** ** checkGameOver on any game *)

Lemma firstToFinish_None W rounds acc :
  (∀ v, default 0 (acc !! v) < W) →
  firstToFinish W (Round.winner <$> rounds) acc = None ↔
  ∀ v, counted v → default 0 (acc !! v) + wins v rounds < W.
Proof.
  revert acc. induction rounds as [|r rest IH]; intros acc Hacc; simpl.
  - split; [|done]. intros _ v _. unfold wins. simpl.
    specialize (Hacc v). lia.
  - destruct (tallied (Round.winner r)) as [w|] eqn:Ht.
    + apply tallied_Some in Ht as [Hw Hne].
      destruct (decide (S (default 0 (acc !! w)) = W)) as [Hhit|Hmiss].
      * split; [done|]. intros Hall. specialize (Hall w Hne).
        rewrite wins_cons, decide_True in Hall by done. lia.
      * rewrite IH.
        -- split; intros Hall v Hv; specialize (Hall v Hv);
             rewrite wins_cons in *;
             destruct (decide (w = v)) as [->|Hwv].
           ++ rewrite lookup_insert_eq in Hall.
              rewrite decide_True by done. simpl in *. lia.
           ++ rewrite lookup_insert_ne in Hall by done.
              rewrite decide_False by congruence. lia.
           ++ rewrite lookup_insert_eq.
              rewrite decide_True in Hall by done. simpl in *. lia.
           ++ rewrite lookup_insert_ne by done.
              rewrite decide_False in Hall by congruence. lia.
        -- intros v. destruct (decide (w = v)) as [->|Hwv].
           ++ rewrite lookup_insert_eq. simpl. specialize (Hacc v). lia.
           ++ rewrite lookup_insert_ne by done. apply Hacc.
    + rewrite IH by done.
      split; intros Hall v Hv; specialize (Hall v Hv);
        rewrite wins_cons in *;
        rewrite decide_False in * by (by apply tallied_None_wins); lia.
Qed.

Lemma firstToFinish_Some W rounds acc w :
  firstToFinish W (Round.winner <$> rounds) acc = Some w →
  ∃ before round after,
    rounds = before ++ round :: after ∧
    Round.winner round = Some w ∧ counted w ∧
    firstToFinish W (Round.winner <$> before) acc = None ∧
    S (default 0 (acc !! w) + wins w before) = W.
Proof.
  revert acc. induction rounds as [|r rest IH]; intros acc; simpl; [done|].
  destruct (tallied (Round.winner r)) as [x|] eqn:Ht.
  - pose proof Ht as [Hx Hne]%tallied_Some.
    destruct (decide (S (default 0 (acc !! x)) = W)) as [Hhit|Hmiss].
    + intros [= ->]. exists [], r, rest. split; [done|]. split; [done|].
      split; [done|]. split; [done|]. unfold wins. simpl. lia.
    + intros Hrest.
      destruct (IH _ Hrest) as (before & round & after & -> & Hw & Hwne & Hnone & Hsum).
      exists (r :: before), round, after. split; [done|]. split; [done|].
      split; [done|]. split.
      * simpl. rewrite Ht. by rewrite decide_False.
      * rewrite wins_cons. destruct (decide (x = w)) as [->|Hxw].
        -- rewrite lookup_insert_eq in Hsum. rewrite decide_True by done.
           simpl in *. lia.
        -- rewrite lookup_insert_ne in Hsum by done.
           rewrite decide_False by congruence. lia.
  - intros Hrest.
    destruct (IH _ Hrest) as (before & round & after & -> & Hw & Hwne & Hnone & Hsum).
    exists (r :: before), round, after. split; [done|]. split; [done|].
    split; [done|]. split.
    + simpl. by rewrite Ht.
    + rewrite wins_cons, decide_False by (by apply tallied_None_wins). lia.
Qed.

(** X17. With [bestOf] at least 1, [checkGameOver] returns false, leaving
    the game as it is, exactly when no counted id (an id that is not the
    empty string and not the name of a member of [Object.prototype]) has
    won ceil(bestOf / 2) rounds of the game. *)
Theorem X17_checkGameOver_false game :
  1 ≤ Game.bestOf game →
  checkGameOver game = Ok (false, game) ↔
  ∀ v, counted v → wins v (Game.rounds game) < winsToFinish game.
Proof.
  intros Hbest.
  assert (HW : 0 < winsToFinish game).
  { pose proof (winsToFinish_ceil game). lia. }
  assert (Hacc : ∀ v, default 0 ((∅ : gmap string nat) !! v) < winsToFinish game)
    by (intros v; by rewrite lookup_empty).
  pose proof (firstToFinish_None (winsToFinish game) (Game.rounds game) ∅ Hacc)
    as Hiff.
  unfold checkGameOver. rewrite checkGameOver_loop_spec. split.
  - destruct (firstToFinish _ _ _) as [w|].
    + by destruct (findPlayer (Game.players game) w).
    + intros _ v Hv. pose proof (proj1 Hiff eq_refl v Hv) as Hlt.
      by rewrite lookup_empty in Hlt.
  - intros Hall. rewrite (proj2 Hiff); [done|].
    intros v Hv. rewrite lookup_empty. by apply Hall.
Qed.

Lemma X17_witness :
  checkGameOver (duel 3 [make; miss]) = Ok (false, duel 3 [make; miss]) ∧
  wins "a" (Game.rounds (duel 3 [make; miss])) < 2.
Proof.
  assert (Hbest : 1 ≤ Game.bestOf (duel 3 [make; miss])) by (vm_compute; lia).
  assert (Hover : checkGameOver (duel 3 [make; miss])
                  = Ok (false, duel 3 [make; miss])) by run.
  split; [exact Hover|].
  exact (proj1 (X17_checkGameOver_false _ Hbest) Hover "a"
           (conj (λ H : "a" = "", ltac:(discriminate H)) eq_refl)).
Defined.

(** X18. When [checkGameOver] returns true, it has changed nothing but
    [game.winner], which is the first roster player of id [w], [w] being
    the winner, a counted id, of the first round, in the order of the
    rounds, at which the tally of a counted id reaches ceil(bestOf / 2): no
    counted id had won that many of the rounds before. *)
Theorem X18_checkGameOver_first_finisher game game' :
  checkGameOver game = Ok (true, game') →
  ∃ before round after w player,
    Game.rounds game = before ++ round :: after ∧
    Round.winner round = Some w ∧ counted w ∧
    S (wins w before) = winsToFinish game ∧
    (∀ v, counted v → wins v before < winsToFinish game) ∧
    findPlayer (Game.players game) w = Some player ∧
    game' = Game.set_winner (Some player) game.
Proof.
  unfold checkGameOver. rewrite checkGameOver_loop_spec.
  destruct (firstToFinish _ _ _) as [w|] eqn:Hf; [|done].
  destruct (findPlayer (Game.players game) w) as [player|] eqn:Hfind; [|done].
  simpl. intros [= <-].
  destruct (firstToFinish_Some _ _ _ _ Hf)
    as (before & round & after & Hrs & Hw & Hne & Hnone & Hsum).
  rewrite lookup_empty in Hsum. simpl in Hsum.
  exists before, round, after, w, player. repeat (split; [done|]).
  split; [|done].
  assert (Hacc : ∀ v, default 0 ((∅ : gmap string nat) !! v) < winsToFinish game)
    by (intros v; rewrite lookup_empty; simpl; lia).
  intros v Hv.
  pose proof (proj1 (firstToFinish_None _ before ∅ Hacc) Hnone v Hv) as Hlt.
  by rewrite lookup_empty in Hlt.
Qed.

Lemma X18_witness :
  ∃ before round after,
    Game.rounds (Game.set_winner None (duel 1 [make; miss]))
    = before ++ round :: after ∧
    Round.winner round = Some "a" ∧ S (wins "a" before) = 1.
Proof.
  assert (Hover : checkGameOver (Game.set_winner None (duel 1 [make; miss]))
                  = Ok (true, duel 1 [make; miss])) by run.
  destruct (X18_checkGameOver_first_finisher _ _ Hover)
    as (before & round & after & w & player & Hrs & Hw & _ & Hwins & _ & Hfind & _).
  assert (w = "a") as ->.
  { destruct before as [|r0 [|r1 before]]; vm_compute in Hrs;
      [|by destruct after|by destruct before].
    injection Hrs as <- _. by injection Hw as <-. }
  by exists before, round, after.
Defined.

(** ** Started matches *)

(** X9. In a started match the turn order of the rounds alternates: the
    rounds of even index (the first, the third, ...) are played in the
    registration order of the roster, the others in the reverse order. *)
Theorem X9_turn_order_alternates game i round :
  started game → Game.rounds game !! i = Some round →
  Round.order round = if Nat.even i then roster game else reverse (roster game).
Proof.
  intros Hst Hi.
  exact (shape_order _ _ _ _ (shape_rounds _ (started_Shape _ Hst) i round Hi)).
Qed.

Lemma X9_witness :
  ∃ second, Game.rounds (duel 3 [make; miss; make; miss]) !! 1 = Some second ∧
            Round.order second = ["c"; "a"].
Proof.
  assert (Hst : started (duel 3 [make; miss; make; miss])).
  { apply (started_duel 3 [make; miss; make; miss]); [repeat constructor|run]. }
  eexists. split; [run|].
  match goal with
  | |- Round.order ?round = _ =>
      assert (Hi : Game.rounds (duel 3 [make; miss; make; miss]) !! 1
                   = Some round) by run
  end.
  rewrite (X9_turn_order_alternates _ 1 _ Hst Hi). run.
Defined.

(** X10. In a started match the rounds are named in order from "Round #1":
    the round at index [i] is named "Round #" followed by [i + 1] in
    decimal. *)
Theorem X10_rounds_named_in_order game i round :
  started game → Game.rounds game !! i = Some round →
  Round.name round = "Round #" +:+ pretty (i + 1).
Proof.
  intros Hst Hi.
  exact (shape_name _ _ _ _ (shape_rounds _ (started_Shape _ Hst) i round Hi)).
Qed.

Lemma X10_witness :
  ∃ third, Game.rounds (duel 3 [make; miss; make; miss]) !! 2 = Some third ∧
           Round.name third = "Round #3".
Proof.
  assert (Hst : started (duel 3 [make; miss; make; miss])).
  { apply (started_duel 3 [make; miss; make; miss]); [repeat constructor|run]. }
  eexists. split; [run|].
  match goal with
  | |- Round.name ?round = _ =>
      assert (Hi : Game.rounds (duel 3 [make; miss; make; miss]) !! 2
                   = Some round) by run
  end.
  rewrite (X10_rounds_named_in_order _ 2 _ Hst Hi). run.
Defined.

(** X11. In a started match the active round is the last round of the
    game, and every round before it has a winner. *)
Theorem X11_active_round_is_last game :
  started game →
  S (Game.activeRound game) = length (Game.rounds game) ∧
  ∀ i round, Game.rounds game !! i = Some round → i < Game.activeRound game →
             is_Some (Round.winner round).
Proof.
  intros Hst. pose proof (inv_active _ (started_Inv _ Hst)) as Ha.
  split; [done|]. intros i round Hi Hlt.
  apply (shape_decided _ (started_Shape _ Hst) i round Hi). lia.
Qed.

Lemma X11_witness :
  ∃ second, Game.rounds (duel 3 [make; miss; make; miss]) !! 1 = Some second ∧
            is_Some (Round.winner second).
Proof.
  assert (Hst : started (duel 3 [make; miss; make; miss])).
  { apply (started_duel 3 [make; miss; make; miss]); [repeat constructor|run]. }
  destruct (X11_active_round_is_last _ Hst) as [_ Hdec].
  eexists. split; [run|].
  apply (Hdec 1); [run|].
  assert (Ha : Game.activeRound (duel 3 [make; miss; make; miss]) = 2) by run.
  rewrite Ha. lia.
Defined.

(** X12. In a started match a round that has a winner has no pending
    attempt, and its winner is the one player whose total makes is the
    greatest of the round. *)
Theorem X12_round_winner_is_sole_leader game round w :
  started game → round ∈ Game.rounds game → Round.winner round = Some w →
  complete (Round.attempts round) ∧ leads (Round.attempts round) w ∧
  ∀ other, leads (Round.attempts round) other → other = w.
Proof.
  intros Hst [i Hi]%list_elem_of_lookup Hw.
  apply winnersOf_sole_inv.
  exact (shape_leader _ _ _ _ (shape_rounds _ (started_Shape _ Hst) i round Hi) w Hw).
Qed.

Lemma X12_witness :
  leads (Round.attempts (duelRound [Some true] [Some false] 0 (Some "a"))) "a".
Proof.
  assert (Hst : started (duel 3 [make; miss])).
  { apply (started_duel 3 [make; miss]); [repeat constructor|run]. }
  assert (Hin : duelRound [Some true] [Some false] 0 (Some "a")
                ∈ Game.rounds (duel 3 [make; miss])).
  { apply list_elem_of_lookup. exists 0. run. }
  exact (proj1 (proj2 (X12_round_winner_is_sole_leader _ _ "a" Hst Hin eq_refl))).
Defined.

(** X13. In a started match with at least one player, [getActiveRound] and
    [getActivePlayer] do not throw: the turn of the active round is within
    its order, the id at the turn is the id of the active player, who is in
    the roster and has an attempt sequence in the active round. *)
Theorem X13_active_player_exists game :
  started game → Game.players game ≠ [] →
  ∃ round player makes,
    getActiveRound game = Ok round ∧ getActivePlayer game = Ok player ∧
    player ∈ Game.players game ∧
    Round.order round !! Round.activePlayer round = Some (Player.id player) ∧
    Round.attempts round !! Player.id player = Some makes.
Proof.
  intros Hst Hne. pose proof (started_Inv _ Hst) as HI.
  destruct (lastRound_exists _ (inv_active _ HI)) as (init & round & Hl).
  pose proof (lastRound_active _ _ _ Hl) as Hr.
  pose proof (proj1 (getActiveRound_lookup _ _) Hr) as Hlook.
  pose proof (shape_rounds _ (started_Shape _ Hst) _ _ Hlook) as Hshape.
  destruct (lookup_lt_is_Some_2 (Round.order round) (Round.activePlayer round))
    as [playerId Hid]; [by apply (shape_turn _ _ _ _ Hshape)|].
  assert (Hroster : playerId ∈ Player.id <$> Game.players game).
  { assert (playerId ∈ Round.order round) as Hin
      by (apply list_elem_of_lookup; eauto).
    rewrite (shape_order _ _ _ _ Hshape) in Hin.
    destruct (Nat.even _); [done|]. by rewrite elem_of_reverse in Hin. }
  destruct (findPlayer_roster _ _ Hroster) as [player Hfind].
  destruct (findPlayer_Some _ _ _ Hfind) as [Hin Hpid].
  assert (Hwf : wfRound (Game.players game) round).
  { apply (proj1 (Forall_forall _ _) (inv_rounds _ HI)).
    apply list_elem_of_lookup. eauto. }
  destruct (wfRound_makes _ _ _ Hwf Hin) as [makes Hm].
  exists round, player, makes. split; [done|]. split.
  - unfold getActivePlayer. rewrite Hr. simpl. rewrite Hid. simpl.
    by rewrite Hfind.
  - split; [done|]. split; [by rewrite Hpid|done].
Qed.

Lemma X13_witness :
  ∃ player, getActivePlayer (duel 3 [make; miss; miss]) = Ok player.
Proof.
  assert (Hst : started (duel 3 [make; miss; miss])).
  { apply (started_duel 3 [make; miss; miss]); [repeat constructor|run]. }
  destruct (X13_active_player_exists _ Hst) as (round & player & makes & _ & Hp & _).
  - vm_compute. discriminate.
  - by exists player.
Defined.

(** X14. In a started match every attempt sequence of every round has at
    least [getGameAttempts] slots, so that the slots from that index on are
    overtime slots. *)
Theorem X14_sequences_have_configured_slots game round id makes :
  started game → round ∈ Game.rounds game →
  Round.attempts round !! id = Some makes →
  getGameAttempts game ≤ length makes.
Proof.
  intros Hst [i Hi]%list_elem_of_lookup Hm.
  exact (shape_long _ _ _ _ (shape_rounds _ (started_Shape _ Hst) i round Hi) id makes Hm).
Qed.

Lemma X14_witness :
  getGameAttempts (longDuel [make]) ≤ length [Some true; @None bool].
Proof.
  assert (Hst : started (longDuel [make])).
  { apply (started_dispatch (dice 10) "game" [ann; cid] 2 3 [make]);
      [repeat constructor|run]. }
  apply (X14_sequences_have_configured_slots (longDuel [make])
           (duelRound [Some true; None] [None; None] 0 None) "a"); [done| |run].
  apply list_elem_of_lookup. exists 0. run.
Defined.

(** X15. In a started match that has a winner, the winner is a roster
    player who won the active round and whose id is counted by
    [checkGameOver] (it is not the empty string and not the name of a
    member of [Object.prototype]); the rounds won under that id number
    exactly ceil(bestOf / 2), and every other counted id has won fewer
    rounds. *)
Theorem X15_match_winner_has_the_majority game player :
  started game → Game.winner game = Some player →
  player ∈ Game.players game ∧ counted (Player.id player) ∧
  (∃ round, getActiveRound game = Ok round ∧
            Round.winner round = Some (Player.id player)) ∧
  wins (Player.id player) (Game.rounds game) = winsToFinish game ∧
  ∀ other, other ≠ Player.id player → counted other →
           wins other (Game.rounds game) < winsToFinish game.
Proof.
  intros Hst Hw.
  destruct (shape_winner _ (started_Shape _ Hst) player Hw)
    as (init & round & w & Hl & Hrw & Hne & Hfind & Hwins & Hnone).
  destruct (findPlayer_Some _ _ _ Hfind) as [Hin Hid]. subst w.
  pose proof Hl as [Hrs _]. rewrite Hrs.
  split; [done|]. split; [done|].
  split; [exists round; split; [by eapply lastRound_active|done]|].
  split.
  - rewrite wins_app, wins_cons, decide_True by done.
    unfold wins at 2. simpl. lia.
  - intros other Hother Hne'.
    rewrite wins_app, wins_cons, decide_False by congruence.
    unfold wins at 2. simpl.
    assert (Hacc : ∀ v, default 0 ((∅ : gmap string nat) !! v) < winsToFinish game)
      by (intros v; rewrite lookup_empty; simpl; lia).
    pose proof (proj1 (firstToFinish_None _ init ∅ Hacc) Hnone other Hne') as Hlt.
    rewrite lookup_empty in Hlt. simpl in Hlt. lia.
Qed.

Lemma X15_witness :
  wins "a" (Game.rounds (duel 3 [make; miss; miss; make])) = 2 ∧
  wins "c" (Game.rounds (duel 3 [make; miss; miss; make])) < 2.
Proof.
  assert (Hst : started (duel 3 [make; miss; miss; make])).
  { apply (started_duel 3 [make; miss; miss; make]);
      [repeat constructor|run]. }
  assert (Hw : Game.winner (duel 3 [make; miss; miss; make])
               = Some ann) by run.
  destruct (X15_match_winner_has_the_majority _ _ Hst Hw)
    as (_ & _ & _ & Hwins & Hothers).
  split; [exact Hwins|].
  apply (Hothers "c"); [discriminate|split; [discriminate|reflexivity]].
Defined.

(** X16. A started match with [bestOf = 0] never gets a winner: the tally
    of a round winner is at least 1 and ceil(0 / 2) is 0. *)
Theorem X16_best_of_zero_never_ends game :
  started game → Game.bestOf game = 0 → Game.winner game = None.
Proof.
  intros Hst Hbest. destruct (Game.winner game) as [player|] eqn:Hw; [|done].
  destruct (shape_winner _ (started_Shape _ Hst) player Hw)
    as (init & round & w & _ & _ & _ & _ & Hwins & _).
  unfold winsToFinish in Hwins. rewrite Hbest in Hwins. simpl in Hwins. lia.
Qed.

Lemma X16_witness :
  Game.winner (duel 0 [make; miss; make; miss; make; miss]) = None ∧
  length (Game.rounds (duel 0 [make; miss; make; miss; make; miss])) = 4.
Proof.
  split; [|run].
  apply X16_best_of_zero_never_ends; [|run].
  apply (started_duel 0 [make; miss; make; miss; make; miss]);
    [repeat constructor|run].
Defined.

(** ** What a playing action leaves alone *)

Lemma gameReducer_rounds e game action game' i round :
  isPlay action → gameReducer e game action = Ok game' →
  Game.rounds game !! i = Some round →
  ∃ round', Game.rounds game' !! i = Some round' ∧ extends round round' ∧
            (i ≠ Game.activeRound game → round' = round).
Proof.
  intros Hplay Hred Hi.
  destruct (gameReducer_general _ _ _ _ Hplay Hred)
    as (_ & _ & _ & _ & active & active' & tail & Hr & Hrs & _ & Hext).
  apply getActiveRound_lookup in Hr.
  pose proof (lookup_lt_Some _ _ _ Hi) as Hlt.
  destruct (decide (i = Game.activeRound game)) as [->|Hne].
  - exists active'. rewrite Hrs, lookup_app_l by (by rewrite length_insert).
    rewrite list_lookup_insert_eq by done.
    split; [done|]. split; [|done]. congruence.
  - exists round. rewrite Hrs, lookup_app_l by (by rewrite length_insert).
    rewrite list_lookup_insert_ne by done.
    split; [done|]. split; [apply extends_refl|done].
Qed.

(** X19. A playing action that returns a state, dispatched on any state,
    keeps the id, the roster, [bestOf] and [attempts] of the game, leaves
    every round other than the active one as it is, and appends at most one
    round. *)
Theorem X19_play_frames_the_active_round e game action game' :
  isPlay action → gameReducer e game action = Ok game' →
  Game.id game' = Game.id game ∧ Game.players game' = Game.players game ∧
  Game.bestOf game' = Game.bestOf game ∧
  getGameAttempts game' = getGameAttempts game ∧
  length (Game.rounds game) ≤ length (Game.rounds game') ∧
  length (Game.rounds game') ≤ S (length (Game.rounds game)) ∧
  ∀ i round, i ≠ Game.activeRound game →
             Game.rounds game !! i = Some round →
             Game.rounds game' !! i = Some round.
Proof.
  intros Hplay Hred.
  destruct (gameReducer_general _ _ _ _ Hplay Hred)
    as (Hid & Hps & Hb & Ha & active & active' & tail & _ & Hrs & Htail & _).
  repeat (split; [done|]).
  split; [rewrite Hrs, length_app, length_insert; lia|].
  split; [rewrite Hrs, length_app, length_insert; lia|].
  intros i round Hne Hi.
  destruct (gameReducer_rounds _ _ _ _ _ _ Hplay Hred Hi) as (r & Hr & _ & Heq).
  by rewrite Hr, (Heq Hne).
Qed.

Lemma X19_witness :
  Game.rounds (duel 3 [make; miss; miss]) !! 0
  = Some (duelRound [Some true] [Some false] 0 (Some "a")).
Proof.
  assert (Hred : gameReducer (dice 10) (duel 3 [make; miss]) miss
                 = Ok (duel 3 [make; miss; miss])) by run.
  destruct (X19_play_frames_the_active_round _ _ miss _ I Hred)
    as (_ & _ & _ & _ & _ & _ & Hframe).
  apply Hframe; [|run].
  assert (Ha : Game.activeRound (duel 3 [make; miss]) = 1) by run.
  rewrite Ha. lia.
Defined.

Lemma plays_rounds game game' i round :
  plays game game' → Game.rounds game !! i = Some round →
  ∃ round', Game.rounds game' !! i = Some round' ∧ extends round round'.
Proof.
  induction 1 as [game|e game mid action game' _ IH Hplay Hred]; intros Hi.
  - exists round. split; [done|apply extends_refl].
  - destruct (IH Hi) as (r & Hr & Hext).
    destruct (gameReducer_rounds _ _ _ _ _ _ Hplay Hred Hr) as (r' & Hr' & Hext' & _).
    exists r'. split; [done|]. by eapply extends_trans.
Qed.

(** X20. Playing never rewrites history: whatever playing actions follow,
    a round of the game stays at its index with its id, name and turn
    order, and an attempt that was recorded as a make or a miss stays
    recorded with the same outcome at the same place. *)
Theorem X20_recorded_attempts_are_kept game game' i round id makes k outcome :
  plays game game' →
  Game.rounds game !! i = Some round →
  Round.attempts round !! id = Some makes →
  makes !! k = Some (Some outcome) →
  ∃ round' makes',
    Game.rounds game' !! i = Some round' ∧
    Round.id round' = Round.id round ∧ Round.name round' = Round.name round ∧
    Round.order round' = Round.order round ∧
    Round.attempts round' !! id = Some makes' ∧
    makes' !! k = Some (Some outcome).
Proof.
  intros Hplays Hi Hm Hk.
  destruct (plays_rounds _ _ _ _ Hplays Hi)
    as (round' & Hi' & Hid & Hname & Horder & _ & Hseq).
  destruct (Hseq _ _ Hm) as (makes' & Hm' & Hkeep & _).
  exists round', makes'. repeat (split; [done|]). by apply Hkeep.
Qed.

Lemma X20_witness :
  ∃ round' makes',
    Game.rounds (duel 3 [make; miss; make; miss]) !! 0 = Some round' ∧
    Round.attempts round' !! "a" = Some makes' ∧
    makes' !! 0 = Some (Some true).
Proof.
  assert (Hplays : plays (duel 3 [make]) (duel 3 [make; miss; make; miss])).
  { apply (plays_step (dice 10) _ (duel 3 [make; miss; make]) miss); [|done|run].
    apply (plays_step (dice 10) _ (duel 3 [make; miss]) make); [|done|run].
    apply (plays_step (dice 10) _ (duel 3 [make]) miss); [|done|run].
    apply plays_refl. }
  destruct (X20_recorded_attempts_are_kept _ _ 0
              (duelRound [Some true] [None] 1 None) "a" [Some true] 0 true Hplays)
    as (round' & makes' & Hi & _ & _ & _ & Hm & Hk); [run..|].
  by exists round', makes'.
Defined.

(** ** Consecutive shots of one player *)

Lemma alter_alter {A} (f g : A → A) (l : list A) i :
  alter f i (alter g i l) = alter (f ∘ g) i l.
Proof.
  revert i. induction l as [|x l IH]; intros [|i]; simpl; try done.
  f_equal. apply IH.
Qed.

Lemma setMakes_setMakes game playerId makes makes' :
  setMakes playerId makes' (setMakes playerId makes game)
  = setMakes playerId makes' game.
Proof.
  unfold setMakes, updateRound. destruct game as [gid ps rs a b n w].
  unfold Game.set_rounds. simpl. f_equal.
  rewrite alter_alter. apply list_alter_ext; [|done].
  intros round _. simpl. unfold Round.set_attempts. simpl.
  by rewrite insert_insert_eq.
Qed.

Lemma findIndexNull_taken taken n :
  findIndexNull ((Some <$> taken) ++ replicate (S n) None) = Some (length taken).
Proof.
  apply findIndexNull_Some. split.
  - rewrite lookup_app_r by (by rewrite length_fmap).
    by rewrite length_fmap, Nat.sub_diag.
  - intros j Hj. rewrite lookup_app_l by (by rewrite length_fmap).
    rewrite list_lookup_fmap. by destruct (taken !! j).
Qed.

Lemma insert_taken taken n (b : bool) :
  <[length taken := Some b]> ((Some <$> taken) ++ replicate (S n) None)
  = (Some <$> taken ++ [b]) ++ replicate n None.
Proof.
  rewrite insert_app_r_alt by (by rewrite length_fmap).
  rewrite length_fmap, Nat.sub_diag. simpl.
  by rewrite fmap_app, <- app_assoc.
Qed.

(** X21. The shots of a controlled player compose: when the active
    player's sequence is made of the attempts [taken] followed by [n]
    pending slots, dispatching fewer than [n] [make] and [miss] actions
    returns the state in which the outcomes were written after [taken], in
    the order of the actions, and nothing else changed; no round is ended
    on the way. *)
Theorem X21_shots_fill_slots_in_order e game round player taken n outcomes :
  getActiveRound game = Ok round → getActivePlayer game = Ok player →
  Player.controlled player = true →
  Round.attempts round !! Player.id player
  = Some ((Some <$> taken) ++ replicate n None) →
  length outcomes < n →
  dispatch e game (shot <$> outcomes)
  = Ok (setMakes (Player.id player)
          ((Some <$> taken ++ outcomes)
             ++ replicate (n - length outcomes) None) game).
Proof.
  intros Hr Hp Hc. revert taken n.
  assert (Hgen : ∀ outs taken n makes,
    Round.attempts round !! Player.id player = Some makes →
    length outs < n →
    dispatch e (setMakes (Player.id player)
                  ((Some <$> taken) ++ replicate n None) game)
      (shot <$> outs)
    = Ok (setMakes (Player.id player)
            ((Some <$> taken ++ outs)
               ++ replicate (n - length outs) None) game)).
  { intros outs. induction outs as [|b rest IH]; intros taken n makes Hm Hlt.
    - simpl. by rewrite app_nil_r, Nat.sub_0_r.
    - destruct n as [|n]; [simpl in Hlt; lia|]. simpl in Hlt.
      cbn [fmap list_fmap dispatch].
      rewrite (gameReducer_shot e _ (shot b)
                 (Round.set_attempts
                    (<[Player.id player := (Some <$> taken) ++ replicate (S n) None]>
                       (Round.attempts round)) round)
                 player
                 ((Some <$> taken) ++ replicate (S n) None) (length taken));
        [|destruct b; auto|by apply getActiveRound_setMakes
         |by rewrite getActivePlayer_setMakes|done
         |simpl; by rewrite lookup_insert_eq|apply findIndexNull_taken].
      cbn zeta. rewrite decide_False.
      2:{ rewrite length_app, length_fmap, length_replicate. lia. }
      simpl. rewrite setMakes_setMakes.
      assert (isMake (shot b) = b) as -> by (by destruct b).
      change (None :: replicate n None) with (replicate (S n) (@None bool)).
      rewrite insert_taken, (IH (taken ++ [b]) n makes Hm) by lia.
      by rewrite <- app_assoc. }
  intros taken n Hm Hlt.
  rewrite <- (Hgen outcomes taken n _ Hm Hlt).
  by rewrite (setMakes_id _ _ _ _ Hr Hm).
Qed.

Lemma X21_witness :
  dispatch (dice 10) (longDuel []) (shot <$> [false])
  = Ok (setMakes "a" [Some false; None] (longDuel [])).
Proof.
  assert (Hr : ∃ round,
    getActiveRound (longDuel []) = Ok round ∧
    Round.attempts round !! "a" = Some ((Some <$> []) ++ replicate 2 None)).
  { eexists. split; run. }
  destruct Hr as (round & Hr & Hm).
  apply (X21_shots_fill_slots_in_order (dice 10) _ round ann [] 2 [false] Hr);
    [run|done|exact Hm|simpl; lia].
Defined.

(** ** The queries and the display *)

(** X22. [getRoundById] does not throw on the id of a round of the game:
    it returns a round of the game with that id, which is the round itself
    when the ids of the rounds are distinct. *)
Theorem X22_getRoundById_finds_rounds game round :
  round ∈ Game.rounds game →
  ∃ found, getRoundById game (Round.id round) = Some found ∧
           found ∈ Game.rounds game ∧ Round.id found = Round.id round ∧
           (NoDup (Round.id <$> Game.rounds game) → found = round).
Proof.
  intros Hin. unfold getRoundById.
  destruct (list_find_elem_of (λ r, Round.id r = Round.id round)
              (Game.rounds game) round) as [[i found] Hfind]; [done..|].
  rewrite Hfind. simpl. exists found. split; [done|].
  apply list_find_Some in Hfind as (Hi & Hid & _).
  split; [apply list_elem_of_lookup; eauto|]. split; [done|].
  intros Hnd. apply list_elem_of_lookup in Hin as [j Hj].
  assert (i = j) as ->; [|congruence].
  apply (NoDup_lookup _ _ _ (Round.id round) Hnd);
    rewrite list_lookup_fmap; [by rewrite Hi; simpl; rewrite Hid|by rewrite Hj].
Qed.

Lemma X22_witness :
  ∃ found,
    getRoundById (duel 3 [make; miss])
      (Round.id (duelRound [Some true] [Some false] 0 (Some "a"))) = Some found ∧
    Round.id found = "round".
Proof.
  destruct (X22_getRoundById_finds_rounds (duel 3 [make; miss])
              (duelRound [Some true] [Some false] 0 (Some "a")))
    as (found & Hfound & _ & Hid & _).
  - apply list_elem_of_lookup. exists 0. run.
  - by exists found.
Defined.

Lemma tallyAttempts_foldl attempts makes taken :
  foldl (λ total attempt,
           match attempt with
           | Some true => (S total.1, S total.2)
           | Some false => (total.1, S total.2)
           | None => total
           end) (makes, taken) attempts
  = (makes + total attempts, taken + (length attempts - pending attempts)).
Proof.
  assert (Hle : ∀ l : list (option bool), pending l ≤ length l)
    by (intros l; apply length_filter).
  revert makes taken.
  induction attempts as [|[[]|] rest IH]; intros makes taken;
    cbn [foldl fst snd].
  - unfold total. simpl. f_equal; lia.
  - rewrite IH, total_cons, pending_cons. specialize (Hle rest).
    simpl. f_equal; lia.
  - rewrite IH, total_cons, pending_cons. specialize (Hle rest).
    simpl. f_equal; lia.
  - rewrite IH, total_cons, pending_cons. specialize (Hle rest).
    simpl. f_equal; lia.
Qed.

(** X23. The pair that [RoundDetails] displays for a sequence: its first
    component is the number of makes, its second the number of attempts
    taken (the slots that are not pending), so that the first is at most
    the second; and the count of [checkWinners] on the sequence is that
    number of makes, unless an attempt is pending. *)
Theorem X23_displayed_tally attempts :
  (tallyAttempts attempts).1 = total attempts ∧
  (tallyAttempts attempts).2 + pending attempts = length attempts ∧
  (tallyAttempts attempts).1 ≤ (tallyAttempts attempts).2 ∧
  countMakes attempts 0
  = if decide (None ∈ attempts) then None else Some (tallyAttempts attempts).1.
Proof.
  unfold tallyAttempts. rewrite tallyAttempts_foldl. simpl.
  assert (Hle : pending attempts ≤ length attempts) by apply length_filter.
  assert (Hsum : total attempts + pending attempts ≤ length attempts).
  { clear Hle. induction attempts as [|[[]|] rest IH]; [done|..];
      rewrite total_cons, pending_cons; simpl; lia. }
  split; [done|]. split; [lia|]. split; [lia|].
  case_decide.
  - by apply countMakes_pending.
  - by rewrite countMakes_total.
Qed.

Lemma endRound_throws e game err :
  endRound e game = Throw err →
  err = RoundNotFound (Game.activeRound game) ∨
  ∃ w, err = WinnerNotFound w ∧ findPlayer (Game.players game) w = None.
Proof.
  unfold endRound, checkWinners, overtime, getActiveRound.
  destruct (Game.rounds game !! Game.activeRound game) as [round|];
    simpl; [|intros [= <-]; by left].
  repeat case_decide; try done.
  unfold checkGameOver. rewrite checkGameOver_loop_spec.
  destruct (firstToFinish _ _ _) as [w|]; [|done]. simpl.
  destruct (findPlayer (Game.players game) w) eqn:Hfind; [done|].
  simpl. intros [= <-]. right. by exists w.
Qed.

Lemma toolbarDisabled_filled makes :
  toolbarDisabled makes = true ↔ findIndexNull makes = None.
Proof.
  unfold toolbarDisabled. rewrite bool_decide_eq_true, findIndexNull_None.
  induction makes as [|[b|] rest IH].
  - split; [intros _ ?%elem_of_nil; done|done].
  - rewrite filter_cons_True by done. cbn [length]. rewrite not_elem_of_cons.
    split.
    + intros [= H]. split; [done|]. by apply IH.
    + intros [_ H]. f_equal. by apply IH.
  - rewrite filter_cons_False by (intros H; by apply H). cbn [length].
    split.
    + intros H. exfalso.
      pose proof (length_filter (λ make : option bool, make ≠ None) rest). lia.
    + intros H. exfalso. apply H. by left.
Qed.

(** X24. The buttons Miss and Make are disabled exactly when the reducer
    would throw "Invalid action, no more makes left": for a controlled
    active player with a sequence in the active round, [disabled] holds if
    and only if [make] and [miss] throw that error. *)
Theorem X24_disabled_iff_no_more_makes e game action round player makes :
  getActiveRound game = Ok round → getActivePlayer game = Ok player →
  Player.controlled player = true →
  Round.attempts round !! Player.id player = Some makes →
  isShot action = true →
  toolbarDisabled makes = true ↔ gameReducer e game action = Throw NoMoreMakes.
Proof.
  intros Hr Hp Hc Hm Hshot. rewrite toolbarDisabled_filled.
  assert (Hact : action = make ∨ action = miss) by (destruct action; auto; done).
  destruct (findIndexNull makes) as [k|] eqn:Hk.
  - split; [done|]. intros Hthrow.
    rewrite (gameReducer_shot e _ _ _ _ _ _ Hact Hr Hp Hc Hm Hk) in Hthrow.
    cbn zeta in Hthrow. case_decide; [|done].
    apply endRound_throws in Hthrow as [?|(w & ? & _)]; done.
  - split; [|done]. intros _.
    destruct Hact as [-> | ->]; simpl;
      by rewrite Hr, Hp; simpl; rewrite Hc, Hm; simpl; rewrite Hk.
Qed.

Lemma X24_witness :
  toolbarDisabled [Some true] = true ↔
  gameReducer (dice 10) (duel 3 [make; miss; miss; make]) make
  = Throw NoMoreMakes.
Proof.
  assert (Hr : ∃ round,
    getActiveRound (duel 3 [make; miss; miss; make]) = Ok round ∧
    Round.attempts round !! "a" = Some [Some true]).
  { eexists. split; run. }
  destruct Hr as (round & Hr & Hm).
  apply (X24_disabled_iff_no_more_makes (dice 10) _ make round ann);
    [done|run|done|exact Hm|done].
Defined.

(** X25. In a started match the rounds without a winner are where
    [RoundDetails] renders the toolbar: a round has no winner exactly when
    it is the active round and the match is not won.  So no toolbar is
    rendered once the match is won. *)
Theorem X25_toolbar_only_in_open_active_round game i round :
  started game → Game.rounds game !! i = Some round →
  hasWinner round = false ↔ i = Game.activeRound game ∧ Game.winner game = None.
Proof.
  intros Hst Hi. pose proof (started_Inv _ Hst) as HI.
  pose proof (inv_active _ HI) as Ha.
  pose proof (lookup_lt_Some _ _ _ Hi) as Hlt.
  unfold hasWinner. rewrite bool_decide_eq_false. split.
  - intros Hnone.
    assert (Hw : Round.winner round = None)
      by (destruct (Round.winner round); [by destruct Hnone|done]).
    destruct (decide (i < Game.activeRound game)) as [Hbefore|Hnot].
    { destruct (shape_decided _ (started_Shape _ Hst) i round Hi);
        [lia|congruence]. }
    assert (i = Game.activeRound game) as -> by lia. split; [done|].
    destruct (Game.winner game) eqn:Hgw; [|done].
    destruct (inv_over _ HI) as (r & w & p & Hr & _ & _ & Hrw & _);
      [by rewrite Hgw|].
    apply getActiveRound_lookup in Hr. congruence.
  - intros [-> Hgw] Hsome. apply Hsome.
    apply (proj1 (inv_open _ HI Hgw)). by apply getActiveRound_lookup.
Qed.

Lemma X25_witness :
  hasWinner (duelRound [Some true] [None] 1 None) = false ↔
  0 = Game.activeRound (duel 3 [make]) ∧ Game.winner (duel 3 [make]) = None.
Proof.
  apply X25_toolbar_only_in_open_active_round; [|run].
  apply (started_duel 3 [make]); [repeat constructor|run].
Defined.

(** X26. In a started match [RoundDetails] finds a row for every id of
    the turn order of every round: the player with that id, and that
    player's sequence, which has at least [getGameAttempts] slots.  Neither
    "Invalid game, player not found" nor a read of an undefined sequence
    happens. *)
Theorem X26_every_row_is_found game round playerId :
  started game → round ∈ Game.rounds game → playerId ∈ Round.order round →
  ∃ player makes,
    playerRow (Game.players game) round playerId = Some (player, makes) ∧
    Player.id player = playerId ∧ player ∈ Game.players game ∧
    getGameAttempts game ≤ length makes.
Proof.
  intros Hst Hin Hp. pose proof (started_Inv _ Hst) as HI.
  pose proof Hin as [i Hi]%list_elem_of_lookup.
  pose proof (shape_rounds _ (started_Shape _ Hst) i round Hi) as Hshape.
  assert (Hroster : playerId ∈ Player.id <$> Game.players game).
  { rewrite (shape_order _ _ _ _ Hshape) in Hp.
    destruct (Nat.even i); [done|]. by rewrite elem_of_reverse in Hp. }
  destruct (findPlayer_roster _ _ Hroster) as [player Hfind].
  destruct (findPlayer_Some _ _ _ Hfind) as [Hpin Hpid].
  assert (Hwf : wfRound (Game.players game) round)
    by (by apply (proj1 (Forall_forall _ _) (inv_rounds _ HI))).
  destruct (wfRound_makes _ _ _ Hwf Hpin) as [makes Hm].
  exists player, makes. unfold playerRow. rewrite Hfind. simpl. rewrite Hm.
  split; [done|]. split; [done|]. split; [done|].
  exact (shape_long _ _ _ _ Hshape _ _ Hm).
Qed.

Lemma X26_witness :
  ∃ player makes,
    playerRow (Game.players (duel 3 [make; miss]))
      (duelRound [Some true] [Some false] 0 (Some "a")) "c"
    = Some (player, makes).
Proof.
  destruct (X26_every_row_is_found (duel 3 [make; miss])
              (duelRound [Some true] [Some false] 0 (Some "a")) "c")
    as (player & makes & Hrow & _).
  - apply (started_duel 3 [make; miss]); [repeat constructor|run].
  - apply list_elem_of_lookup. exists 0. run.
  - apply list_elem_of_lookup. by exists 1.
  - by exists player, makes.
Defined.

(** X27. In a started match [RoundDetails] shows a crown exactly on the
    decided rounds: for a round with a winner it finds a roster player
    with the winner's id, for a round without winner it finds none. *)
Theorem X27_crown_on_decided_rounds game round :
  started game → round ∈ Game.rounds game →
  match Round.winner round with
  | Some w => ∃ player, crowned (Game.players game) round = Some player ∧
                        Player.id player = w ∧ player ∈ Game.players game
  | None => crowned (Game.players game) round = None
  end.
Proof.
  intros Hst Hin. pose proof (started_Inv _ Hst) as HI.
  pose proof Hin as [i Hi]%list_elem_of_lookup.
  pose proof (shape_rounds _ (started_Shape _ Hst) i round Hi) as Hshape.
  unfold crowned. destruct (Round.winner round) as [w|] eqn:Hw; [|done]. simpl.
  assert (Hwf : wfRound (Game.players game) round)
    by (by apply (proj1 (Forall_forall _ _) (inv_rounds _ HI))).
  destruct (winnersOf_sole_inv _ _ (shape_leader _ _ _ _ Hshape w Hw))
    as (_ & (m & Hm & _) & _).
  assert (w ∈ dom (Round.attempts round)) as Hdom by (apply elem_of_dom; eauto).
  rewrite (wf_keys _ _ Hwf) in Hdom. apply elem_of_list_to_set in Hdom.
  destruct (findPlayer_roster _ _ Hdom) as [player Hfind].
  destruct (findPlayer_Some _ _ _ Hfind) as [Hpin Hpid].
  by exists player.
Qed.

Lemma X27_witness :
  ∃ player,
    crowned (Game.players (duel 3 [make; miss]))
      (duelRound [Some true] [Some false] 0 (Some "a")) = Some player ∧
    Player.id player = "a".
Proof.
  assert (Hst : started (duel 3 [make; miss])).
  { apply (started_duel 3 [make; miss]); [repeat constructor|run]. }
  assert (Hin : duelRound [Some true] [Some false] 0 (Some "a")
                ∈ Game.rounds (duel 3 [make; miss])).
  { apply list_elem_of_lookup. exists 0. run. }
  destruct (X27_crown_on_decided_rounds _ _ Hst Hin) as (player & Hc & Hid & _).
  by exists player.
Defined.

(** ** The actions of the toolbar *)






(** ** Whose turn it is *)
















(** Two players of one id: the second is asked to shoot into the sequence
    that the first has filled, and the reducer throws. *)
Example shared_id_blocks_the_match :
  gameReducer (dice 10)
    (the (dispatch (dice 10) (GAME "game")
            [start [ann; Player.mk "a" "Ada" 50 true; cid] 1 3; make]))
    make
  = Throw NoMoreMakes.
Proof. run. Qed.

(** No attempt per round: the first shot has no slot to fill. *)
Example no_attempt_blocks_the_match :
  gameReducer (dice 10)
    (the (dispatch (dice 10) (GAME "game") [start [ann; cid] 0 3])) make
  = Throw NoMoreMakes.
Proof. run. Qed.


